(** * SnakeVentures: the game logic of [src/app/page.tsx]

    A shallow embedding of the state held by the [SnakeVentures] component
    (its [useState] hooks) and of the callbacks that change it:
    [generatePeach], [moveSnake], [handleKeyPress], [handleMobileControl],
    [startGame] and [resetGame].

    Conventions of the embedding.
    - A JavaScript number that holds a grid coordinate or the score is a [Z].
    - One call of a callback is one atomic transition: the values the closure
      reads are the current state, and every [setX] it issues is applied to
      that state.
    - [Math.random()] is an external source: a sequence [rand : nat -> float]
      of binary64 numbers of [[0,1)], read through the counter [randomCalls];
      the product [Math.random() * GRID_SIZE] is the binary64 product.
    - The [do ... while] loop of [generatePeach] runs on fuel (one unit per
      iteration); [None] means the loop has not left within the fuel. *)

From Stdlib Require Import Floats.
From Stdlib Require Import ZArith List Bool String Ascii Lia.
Import ListNotations.
Local Open Scope Z_scope.

(** ** Data *)

(** [interface Position { x: number; y: number }] *)
Record Position : Type := mkPosition { x : Z; y : Z }.

(** [type Direction = 'UP' | 'DOWN' | 'LEFT' | 'RIGHT'] *)
Inductive Direction : Type := UP | DOWN | LEFT | RIGHT.

Definition GRID_SIZE : Z := 20.
Definition INITIAL_SNAKE : list Position := [mkPosition 10 10].
Definition INITIAL_DIRECTION : Direction := RIGHT.
Definition GAME_SPEED : Z := 150.
Definition MAX_PEACHES : Z := 10.

(** The default peach of [useState<Position>({ x: 15, y: 10 })], which
    [resetGame] writes again. *)
Definition DEFAULT_PEACH : Position := mkPosition 15 10.

(** The state of the component: one field per [useState] hook the game logic
    reads or writes ([showControls] only drives the help box).  [randomCalls]
    is not a hook: it counts the results of [Math.random()] consumed so far. *)
Record State : Type := mkState {
  snake : list Position;
  direction : Direction;
  peach : Position;
  gameOver : bool;
  score : Z;
  isPlaying : bool;
  randomCalls : nat
}.

(** [a.x === b.x && a.y === b.y], the test every [some] and the peach check
    of the source use. *)
Definition same_cell (a b : Position) : bool :=
  (x a =? x b) && (y a =? y b).

(** [array.some(segment => segment.x === p.x && segment.y === p.y)] *)
Definition some_at (p : Position) (cells : list Position) : bool :=
  existsb (fun segment => same_cell segment p) cells.

Definition Direction_eqb (a b : Direction) : bool :=
  match a, b with
  | UP, UP | DOWN, DOWN | LEFT, LEFT | RIGHT, RIGHT => true
  | _, _ => false
  end.

(** The direction each guard of the input handlers compares with. *)
Definition opposite (d : Direction) : Direction :=
  match d with
  | UP => DOWN
  | DOWN => UP
  | LEFT => RIGHT
  | RIGHT => LEFT
  end.

(** The [switch (direction)] of [moveSnake], applied to a copy of the head. *)
Definition advance (d : Direction) (head : Position) : Position :=
  match d with
  | UP => mkPosition (x head) (y head - 1)
  | DOWN => mkPosition (x head) (y head + 1)
  | LEFT => mkPosition (x head - 1) (y head)
  | RIGHT => mkPosition (x head + 1) (y head)
  end.

(** [head.x < 0 || head.x >= GRID_SIZE || head.y < 0 || head.y >= GRID_SIZE] *)
Definition hits_wall (head : Position) : bool :=
  (x head <? 0) || (x head >=? GRID_SIZE) || (y head <? 0) || (y head >=? GRID_SIZE).

(** A cell of the grid [[0,GRID_SIZE) x [0,GRID_SIZE)]. *)
Definition in_grid (p : Position) : Prop :=
  0 <= x p < GRID_SIZE /\ 0 <= y p < GRID_SIZE.

(** ** The phases of a game, as the component tells them apart

    [isGameWon = score >= MAX_PEACHES] shows "Victory!", [gameOver && !isGameWon]
    shows "Game Over", the game loop runs while
    [isPlaying && !gameOver && score < MAX_PEACHES]; what is left is the state
    before a start or after a reset. *)
Inductive Phase : Type := IDLE | ACTIVE | WON | LOST.

Definition phase (st : State) : Phase :=
  if MAX_PEACHES <=? score st then WON
  else if gameOver st then LOST
  else if isPlaying st then ACTIVE
  else IDLE.

(** ** The random source *)

(** An integer constant of the source as the binary64 number it is. *)
Definition Number (z : Z) : float :=
  SF2Prim (binary_normalize prec emax z 0 false).

(** [Math.floor] of a finite binary64 number [(-1)^s * m * 2^e], as an
    integer; both zeros give 0.  The floor of an infinity or of NaN is no
    integer: the product of a number of [[0,1)] and [GRID_SIZE] is never one
    of them ([unit_times_GRID_SIZE] below), and 0 stands for it here. *)
Definition Math_floor (f : float) : Z :=
  match Prim2SF f with
  | S754_finite s m e => Z.shiftl (if s then Z.neg m else Z.pos m) e
  | _ => 0
  end.

(** What [Math.random()] returns: a binary64 number, 0 or more and less
    than 1. *)
Definition unit_interval (f : float) : Prop :=
  (Number 0 <=? f)%float = true /\ (f <? Number 1)%float = true.

(** [Math.floor(Math.random() * GRID_SIZE)] for the [i]-th result of
    [Math.random()]: the binary64 product, rounded to nearest even, then
    floored. *)
Definition random_coordinate (rand : nat -> float) (i : nat) : Z :=
  Math_floor (rand i * Number GRID_SIZE)%float.

(** The object literal of the loop body: [x] is drawn first, then [y]. *)
Definition random_cell (rand : nat -> float) (i : nat) : Position :=
  mkPosition (random_coordinate rand i) (random_coordinate rand (S i)).

(** ** The callbacks *)

(** The branch of [moveSnake] a call runs, named after the comments of the
    source.  [moveSnake] itself returns [undefined]: the label is kept beside
    the new state, it is not part of it. *)
Inductive Branch : Type :=
| NotRunning       (* the early [return] of the first line *)
| WallCollision    (* "Check wall collision" *)
| SelfCollision    (* "Check self collision" *)
| PeachCollected   (* "Check peach collision", a new peach is generated *)
| GameWon          (* "Game won - collected all peaches" *)
| TailRemoved.     (* "Remove tail if no peach collected" *)

Section Callbacks.

Variable rand : nat -> float.

(** [generatePeach]: draw a cell, and draw again while it lies on the snake.
    Returns the peach and the number of random results consumed. *)
Fixpoint generatePeach (fuel : nat) (i : nat) (currentSnake : list Position)
  : option (Position * nat) :=
  match fuel with
  | O => None
  | S fuel' =>
      let newPeach := random_cell rand i in
      if some_at newPeach currentSnake
      then generatePeach fuel' (2 + i)%nat currentSnake
      else Some (newPeach, (2 + i)%nat)
  end.

(** [moveSnake].  On an empty snake [newSnake[0]] is [undefined], the copied
    head has no numeric coordinate, every comparison with it is false, and the
    head that was pushed is popped again: the state is left as it is. *)
Definition moveSnake (fuel : nat) (st : State) : option (Branch * State) :=
  if gameOver st || negb (isPlaying st) || (score st >=? MAX_PEACHES)
  then Some (NotRunning, st)
  else
    let currentSnake := snake st in
    match currentSnake with
    | [] => Some (TailRemoved, st)
    | first :: _ =>
        let head := advance (direction st) first in
        if hits_wall head then
          Some (WallCollision,
                mkState currentSnake (direction st) (peach st)
                        true (score st) false (randomCalls st))
        else if some_at head currentSnake then
          Some (SelfCollision,
                mkState currentSnake (direction st) (peach st)
                        true (score st) false (randomCalls st))
        else
          let newSnake := head :: currentSnake in
          if same_cell head (peach st) then
            if score st + 1 <? MAX_PEACHES then
              match generatePeach fuel (randomCalls st) newSnake with
              | None => None
              | Some (newPeach, calls) =>
                  Some (PeachCollected,
                        mkState newSnake (direction st) newPeach
                                (gameOver st) (score st + 1) (isPlaying st) calls)
              end
            else
              Some (GameWon,
                    mkState newSnake (direction st) (peach st)
                            (gameOver st) (score st + 1) false (randomCalls st))
          else
            Some (TailRemoved,
                  mkState (removelast newSnake) (direction st) (peach st)
                          (gameOver st) (score st) (isPlaying st) (randomCalls st))
    end.

(** [startGame] *)
Definition startGame (fuel : nat) (st : State) : option State :=
  match generatePeach fuel (randomCalls st) INITIAL_SNAKE with
  | None => None
  | Some (newPeach, calls) =>
      Some (mkState INITIAL_SNAKE INITIAL_DIRECTION newPeach false 0 true calls)
  end.

End Callbacks.

(** [setDirection(d)] *)
Definition setDirection (d : Direction) (st : State) : State :=
  mkState (snake st) d (peach st) (gameOver st) (score st) (isPlaying st)
          (randomCalls st).

(** [handleMobileControl] *)
Definition handleMobileControl (newDirection : Direction) (st : State) : State :=
  if gameOver st && (score st <? MAX_PEACHES) then st
  else
    match newDirection with
    | UP => if negb (Direction_eqb (direction st) DOWN) then setDirection UP st else st
    | DOWN => if negb (Direction_eqb (direction st) UP) then setDirection DOWN st else st
    | LEFT => if negb (Direction_eqb (direction st) RIGHT) then setDirection LEFT st else st
    | RIGHT => if negb (Direction_eqb (direction st) LEFT) then setDirection RIGHT st else st
    end.

(** [String.prototype.toLowerCase] on the letters A to Z, the only characters
    it maps to one of the four keys. *)
Definition lower_ascii (c : ascii) : ascii :=
  let n := nat_of_ascii c in
  if ((65 <=? n) && (n <=? 90))%nat then ascii_of_nat (n + 32) else c.

Fixpoint toLowerCase (s : string) : string :=
  match s with
  | EmptyString => EmptyString
  | String c rest => String (lower_ascii c) (toLowerCase rest)
  end.

(** [handleKeyPress], applied to [event.key]: the [switch (key)] on the four
    lower-case letters, any other key falling through. *)
Definition handleKeyPress (event_key : string) (st : State) : State :=
  if gameOver st && (score st <? MAX_PEACHES) then st
  else
    let key := toLowerCase event_key in
    if String.eqb key "w" then
      if negb (Direction_eqb (direction st) DOWN) then setDirection UP st else st
    else if String.eqb key "s" then
      if negb (Direction_eqb (direction st) UP) then setDirection DOWN st else st
    else if String.eqb key "a" then
      if negb (Direction_eqb (direction st) RIGHT) then setDirection LEFT st else st
    else if String.eqb key "d" then
      if negb (Direction_eqb (direction st) LEFT) then setDirection RIGHT st else st
    else st.

(** [resetGame] *)
Definition resetGame (st : State) : State :=
  mkState INITIAL_SNAKE INITIAL_DIRECTION DEFAULT_PEACH false 0 false
          (randomCalls st).

(** The state of the first render. *)
Definition initialState : State :=
  mkState INITIAL_SNAKE INITIAL_DIRECTION DEFAULT_PEACH false 0 false 0.

(** ** Runs of the component *)

(** What can happen to the component: the interval fires, a key goes down, a
    touch button is pressed, the start button or the reset button is clicked.
    The page offers the start button while [isPlaying] is false and the reset
    button while it is true, and lets the interval run in the ACTIVE phase
    only; here any event may come in any state, which only adds runs. *)
Inductive Event : Type :=
| Interval
| KeyDown (event_key : string)
| TouchStart (newDirection : Direction)
| ClickStart
| ClickReset.

Definition handle (rand : nat -> float) (fuel : nat) (e : Event) (st : State)
  : option State :=
  match e with
  | Interval => option_map snd (moveSnake rand fuel st)
  | KeyDown k => Some (handleKeyPress k st)
  | TouchStart d => Some (handleMobileControl d st)
  | ClickStart => startGame rand fuel st
  | ClickReset => Some (resetGame st)
  end.

(** The states a run can be in, for a given random source. *)
Inductive reachable (rand : nat -> float) : State -> Prop :=
| reachable_initial : reachable rand initialState
| reachable_handle : forall st e fuel st',
    reachable rand st -> handle rand fuel e st = Some st' -> reachable rand st'.

(** Events handled one after the other, each loop on the same fuel. *)
Fixpoint run (rand : nat -> float) (fuel : nat) (events : list Event) (st : State)
  : option State :=
  match events with
  | [] => Some st
  | e :: rest =>
      match handle rand fuel e st with
      | None => None
      | Some st' => run rand fuel rest st'
      end
  end.

(** [n] calls of [moveSnake] in a row. *)
Fixpoint ticks (rand : nat -> float) (fuel : nat) (n : nat) (st : State)
  : option State :=
  match n with
  | O => Some st
  | S n' =>
      match moveSnake rand fuel st with
      | None => None
      | Some (_, st') => ticks rand fuel n' st'
      end
  end.

(** A result of [Math.random()] in the middle of the values whose scaled
    floor is [k]: the binary64 quotient (2k+1)/40. *)
Definition mid (k : Z) : float := (Number (2 * k + 1) / Number 40)%float.

(** A random source given by its first results, [mid 0] afterwards. *)
Definition rand_of (results : list float) : nat -> float :=
  fun i => nth i results (mid 0).

(** ** Notions the statements use *)

(** The head [moveSnake] computes: the first cell moved one step in the
    current direction; none on an empty snake. *)
Definition newHead (st : State) : option Position :=
  match snake st with
  | [] => None
  | first :: _ => Some (advance (direction st) first)
  end.

(** The [k]-th cell [generatePeach] draws, starting at random result [i],
    misses [cells]. *)
Definition free_draw (rand : nat -> float) (i : nat) (cells : list Position)
  (k : nat) : Prop :=
  some_at (random_cell rand (i + 2 * k)) cells = false.

(** The state a collision of either kind leaves behind. *)
Definition collided (st : State) : State :=
  mkState (snake st) (direction st) (peach st) true (score st) false
          (randomCalls st).

(** The peach is off the snake while the score is below [MAX_PEACHES]; from
    then on it is the cell of the head. *)
Definition peach_placed (body : list Position) (target : Position) (points : Z)
  : Prop :=
  (points < MAX_PEACHES -> ~ In target body) /\
  (MAX_PEACHES <= points -> exists tl, body = target :: tl).

(** What [k] right shifts of [M] have kept. *)
Definition shifted (M k : Z) (mrs : shr_record) : Prop :=
  0 <= k /\ 0 <= shr_m mrs /\ shr_m mrs * 2 ^ k <= M /\
  (shr_r mrs = true -> 1 <= k /\ shr_m mrs * 2 ^ k + 2 ^ (k - 1) <= M).

(** Two cells side by side or one above the other. *)
Definition adjacent (a b : Position) : Prop :=
  Z.abs (x a - x b) + Z.abs (y a - y b) = 1.

(** Each cell of the body touches the next one. *)
Fixpoint connected (body : list Position) : Prop :=
  match body with
  | a :: rest =>
      match rest with
      | b :: _ => adjacent a b /\ connected rest
      | [] => True
      end
  | [] => True
  end.

(** The index of the square of a cell. *)
Definition index_of_cell (cell : Position) : Z := y cell * GRID_SIZE + x cell.

(** What every state of a run satisfies. *)
Record well_formed (st : State) : Prop := mkWellFormed {
  wf_score : 0 <= score st <= MAX_PEACHES;
  wf_length : Z.of_nat (List.length (snake st)) = score st + 1;
  wf_distinct : NoDup (snake st);
  wf_connected : connected (snake st);
  wf_in_grid : Forall in_grid (snake st);
  wf_playing : isPlaying st = true -> gameOver st = false /\ score st < MAX_PEACHES;
  wf_gameOver : gameOver st = true -> score st < MAX_PEACHES;
  wf_idle : isPlaying st = false -> gameOver st = false -> score st < MAX_PEACHES ->
            snake st = INITIAL_SNAKE /\ peach st = DEFAULT_PEACH /\ score st = 0
}.

(** Two states that differ in the stored direction at most. *)
Definition same_but_direction (a b : State) : Prop :=
  snake a = snake b /\ peach a = peach b /\ gameOver a = gameOver b /\
  score a = score b /\ isPlaying a = isPlaying b /\ randomCalls a = randomCalls b.

(** The events that are neither a start nor a reset. *)
Definition not_a_click (e : Event) : bool :=
  match e with
  | ClickStart | ClickReset => false
  | _ => true
  end.

(** The key of each direction. *)
Definition wasd (d : Direction) : string :=
  match d with
  | UP => "w"
  | DOWN => "s"
  | LEFT => "a"
  | RIGHT => "d"
  end%string.

(** Every cell of the grid, row by row. *)
Definition all_cells : list Position :=
  flat_map (fun row => map (fun col => mkPosition col row)
                           (map Z.of_nat (seq 0 (Z.to_nat GRID_SIZE))))
           (map Z.of_nat (seq 0 (Z.to_nat GRID_SIZE))).

(** A game in progress with the given snake and direction. *)
Definition playing (body : list Position) (d : Direction) (target : Position)
  (points : Z) : State :=
  mkState body d target false points true 0.

(** ** What the page renders *)

(** The condition of the game loop effect: the interval is set while it holds
    and cleared otherwise. *)
Definition gameLoopRuns (st : State) : bool :=
  isPlaying st && negb (gameOver st) && (score st <? MAX_PEACHES).

(** [const isGameWon = score >= MAX_PEACHES] *)
Definition isGameWon (st : State) : bool := score st >=? MAX_PEACHES.

(** The two texts of the status line, each under its own condition. *)
Inductive StatusText : Type := VictoryText | GameOverText.

Definition statusTexts (st : State) : list StatusText :=
  (if isGameWon st then [VictoryText] else []) ++
  (if gameOver st && negb (isGameWon st) then [GameOverText] else []).

(** The one button under the board: the start button, labelled "Start Game"
    or "Play Again", while [isPlaying] is false, the reset button otherwise. *)
Inductive ButtonShown : Type := StartGameButton | PlayAgainButton | ResetButton.

Definition buttonShown (st : State) : ButtonShown :=
  if negb (isPlaying st) then
    if (score st =? 0) && negb (gameOver st) then StartGameButton
    else PlayAgainButton
  else ResetButton.

(** [onClick] of that button. *)
Definition clickButton (rand : nat -> float) (fuel : nat) (st : State) : option State :=
  if negb (isPlaying st) then startGame rand fuel st else Some (resetGame st).

(** The instructions under the button:
    [!isPlaying && score === 0 && !gameOver]. *)
Definition instructionsShown (st : State) : bool :=
  negb (isPlaying st) && (score st =? 0) && negb (gameOver st).

(** The cell of the [index]-th square of the board:
    [x = index % GRID_SIZE], [y = Math.floor(index / GRID_SIZE)]. *)
Definition cell_of_index (index : Z) : Position :=
  mkPosition (Z.rem index GRID_SIZE) (index / GRID_SIZE).

(** The indices [Array.from({ length: GRID_SIZE * GRID_SIZE })] maps over. *)
Definition board_indices : list Z :=
  map Z.of_nat (seq 0 (Z.to_nat (GRID_SIZE * GRID_SIZE))).

(** [snake[0]?.x === x && snake[0]?.y === y] *)
Definition isSnakeHead (st : State) (cell : Position) : bool :=
  match snake st with
  | [] => false
  | first :: _ => same_cell first cell
  end.

(** [snake.slice(1).some(segment => segment.x === x && segment.y === y)] *)
Definition isSnakeBody (st : State) (cell : Position) : bool :=
  some_at cell (tl (snake st)).

(** [peach.x === x && peach.y === y] *)
Definition isPeach (st : State) (cell : Position) : bool :=
  same_cell (peach st) cell.

(** The background class of a square. *)
Inductive Colour : Type := Emerald400 | Emerald300 | Pink400 | Green50.

Definition squareColour (st : State) (index : Z) : Colour :=
  let cell := cell_of_index index in
  if isSnakeHead st cell then Emerald400
  else if isSnakeBody st cell then Emerald300
  else if isPeach st cell then Pink400
  else Green50.

(** Whether the square holds the peach emoji (and pulses): [isPeach] alone. *)
Definition squareHasPeach (st : State) (index : Z) : bool :=
  isPeach st (cell_of_index index).

Definition Colour_eqb (a b : Colour) : bool :=
  match a, b with
  | Emerald400, Emerald400 | Emerald300, Emerald300
  | Pink400, Pink400 | Green50, Green50 => true
  | _, _ => false
  end.

(** How many squares of the board have a given colour. *)
Definition count_colour (c : Colour) (st : State) : nat :=
  List.length (filter (fun index => Colour_eqb (squareColour st index) c)
                      board_indices).

(** ** Concrete games *)

(** Scenario A of the specification: the peach lies right ahead. *)
Definition scenario_A : State :=
  playing [mkPosition 10 10] RIGHT (mkPosition 11 10) 0.

(** Scenario B: at the left wall, heading left. *)
Definition scenario_B : State :=
  playing [mkPosition 0 5] LEFT DEFAULT_PEACH 0.

(** Scenario C: three cells in a row, heading right. *)
Definition scenario_C : State :=
  playing [mkPosition 5 5; mkPosition 4 5; mkPosition 3 5] RIGHT DEFAULT_PEACH 2.

(** A snake of two cells about to step on its own last cell. *)
Definition onto_tail : State :=
  playing [mkPosition 11 10; mkPosition 10 10] LEFT DEFAULT_PEACH 1.

(** A game just started: one cell, heading right, the peach five cells ahead. *)
Definition just_started : State :=
  playing [mkPosition 10 10] RIGHT DEFAULT_PEACH 0.

(** Start and let the interval fire ten times: the snake runs into the right
    wall. *)
Definition crash_events : list Event := ClickStart :: repeat Interval 10.

(** The state that game ends in, the snake against the wall. *)
Definition crashed_state : State :=
  mkState [mkPosition 19 10] RIGHT (mkPosition 10 9) true 0 false 2.

(** A game of the source [rand_win] after its first tick. *)
Definition moved_once : State :=
  mkState [mkPosition 11 10] RIGHT (mkPosition 10 9) false 0 true 2.

(** A snake of two cells that has just moved right. *)
Definition two_cells : State :=
  playing [mkPosition 11 10; mkPosition 10 10] RIGHT DEFAULT_PEACH 1.

(** The source whose every result is [mid 0]: every cell drawn is (0,0). *)
Definition rand_low : nat -> float := rand_of [].

(** The source of a game won in ten ticks: the first peach is drawn at (10,9),
    each later one a cell further up, the last at (10,0). *)
Definition rand_win : nat -> float :=
  rand_of (flat_map (fun row => [mid 10; mid (Z.of_nat row)]) (rev (seq 0 10))).

(** Start, turn up, and let the interval fire ten times. *)
Definition winning_events : list Event :=
  ClickStart :: KeyDown "w" :: repeat Interval 10.

(** The state the winning game ends in: eleven cells from (10,0) down to
    (10,10), the peach still at (10,0). *)
Definition won_state : State :=
  mkState (map (fun row => mkPosition 10 (Z.of_nat row)) (seq 0 11))
          UP (mkPosition 10 0) false 10 false 20.

(** A source whose first cell is (3,4). *)
Definition rand_3_4 : nat -> float := rand_of [mid 3; mid 4].

(** A source whose first cell is (10,10), the cell of the initial snake, and
    whose second cell is (3,4). *)
Definition rand_retry : nat -> float := rand_of [mid 10; mid 10; mid 3; mid 4].

Definition Position_eq_dec (a b : Position) : {a = b} + {a <> b}.
Proof. decide equality; apply Z.eq_dec. Defined.

(** * Basic facts *)

Lemma same_cell_true (a b : Position) : same_cell a b = true <-> a = b.
Proof.
  unfold same_cell. rewrite andb_true_iff, !Z.eqb_eq.
  destruct a, b; simpl. split.
  - intros [-> ->]. reflexivity.
  - intros E. injection E; auto.
Qed.

Lemma same_cell_refl (a : Position) : same_cell a a = true.
Proof. apply same_cell_true. reflexivity. Qed.

Lemma some_at_In (p : Position) (cells : list Position) :
  some_at p cells = true <-> In p cells.
Proof.
  unfold some_at. rewrite existsb_exists. split.
  - intros [q [Hq E]]. apply same_cell_true in E. subst. assumption.
  - intros H. exists p. split; [assumption | apply same_cell_refl].
Qed.

Lemma some_at_not_In (p : Position) (cells : list Position) :
  some_at p cells = false <-> ~ In p cells.
Proof.
  rewrite <- some_at_In. destruct (some_at p cells); split; intro H;
    try reflexivity; try discriminate. exfalso. apply H. reflexivity.
Qed.

Lemma hits_wall_false (p : Position) : hits_wall p = false <-> in_grid p.
Proof.
  unfold hits_wall, in_grid, GRID_SIZE. rewrite !orb_false_iff.
  rewrite !Z.ltb_ge, !Z.geb_leb, !Z.leb_gt. lia.
Qed.

Lemma hits_wall_true (p : Position) : hits_wall p = true <-> ~ in_grid p.
Proof.
  rewrite <- hits_wall_false. destruct (hits_wall p); split; intro H;
    try reflexivity; try discriminate. exfalso. apply H. reflexivity.
Qed.

(** The guard of the first line of [moveSnake] lets exactly the ACTIVE phase
    through. *)
Lemma guard_phase (st : State) :
  gameOver st || negb (isPlaying st) || (score st >=? MAX_PEACHES) = false
  <-> phase st = ACTIVE.
Proof.
  unfold phase. rewrite Z.geb_leb.
  destruct (MAX_PEACHES <=? score st), (gameOver st), (isPlaying st); simpl;
    split; intro H; try reflexivity; discriminate.
Qed.

Lemma phase_ACTIVE (st : State) :
  phase st = ACTIVE <->
  gameOver st = false /\ isPlaying st = true /\ score st < MAX_PEACHES.
Proof.
  unfold phase. destruct (Z.leb_spec MAX_PEACHES (score st));
    destruct (gameOver st), (isPlaying st); split;
    try discriminate; try (intros [? [? ?]]; try discriminate; lia);
    intros _; repeat split; lia.
Qed.

Lemma phase_WON (st : State) : phase st = WON <-> MAX_PEACHES <= score st.
Proof.
  unfold phase. destruct (Z.leb_spec MAX_PEACHES (score st)).
  - split; [intros _; assumption | reflexivity].
  - split; [| lia]. destruct (gameOver st), (isPlaying st); discriminate.
Qed.

Lemma phase_collided (st : State) :
  score st < MAX_PEACHES -> phase (collided st) = LOST.
Proof.
  intros H. unfold phase, collided; simpl.
  destruct (Z.leb_spec MAX_PEACHES (score st)); [lia | reflexivity].
Qed.

Lemma moveSnake_active (rand : nat -> float) (fuel : nat) (st : State) :
  phase st = ACTIVE ->
  moveSnake rand fuel st =
    match snake st with
    | [] => Some (TailRemoved, st)
    | first :: _ =>
        let head := advance (direction st) first in
        if hits_wall head then Some (WallCollision, collided st)
        else if some_at head (snake st) then Some (SelfCollision, collided st)
        else
          if same_cell head (peach st) then
            if score st + 1 <? MAX_PEACHES then
              match generatePeach rand fuel (randomCalls st) (head :: snake st) with
              | None => None
              | Some (newPeach, calls) =>
                  Some (PeachCollected,
                        mkState (head :: snake st) (direction st) newPeach
                                (gameOver st) (score st + 1) (isPlaying st) calls)
              end
            else
              Some (GameWon,
                    mkState (head :: snake st) (direction st) (peach st)
                            (gameOver st) (score st + 1) false (randomCalls st))
          else
            Some (TailRemoved,
                  mkState (removelast (head :: snake st)) (direction st) (peach st)
                          (gameOver st) (score st) (isPlaying st) (randomCalls st))
    end.
Proof.
  intros H. apply guard_phase in H. unfold moveSnake, collided. rewrite H.
  destruct (snake st); reflexivity.
Qed.

Lemma moveSnake_idle (rand : nat -> float) (fuel : nat) (st : State) :
  phase st <> ACTIVE -> moveSnake rand fuel st = Some (NotRunning, st).
Proof.
  intros H. unfold moveSnake.
  destruct (gameOver st || negb (isPlaying st) || (score st >=? MAX_PEACHES)) eqn:G.
  - reflexivity.
  - apply guard_phase in G. contradiction.
Qed.

(** * Ticks outside the ACTIVE phase *)

Lemma ticks_idle (rand : nat -> float) (fuel n : nat) (st : State) :
  phase st <> ACTIVE -> ticks rand fuel n st = Some st.
Proof.
  intros H. induction n as [| n IH]; simpl.
  - reflexivity.
  - rewrite (moveSnake_idle rand fuel st H). exact IH.
Qed.

(** C7: while the phase is not ACTIVE (IDLE, WON or LOST) a call of
    [moveSnake] takes the early return and leaves the whole state, hence the
    snake, the peach and the score, as it was; so does any number of calls in
    a row. *)
Theorem moveSnake_outside_ACTIVE_is_noop :
  forall (rand : nat -> float) (fuel : nat) (st : State),
    phase st <> ACTIVE ->
    moveSnake rand fuel st = Some (NotRunning, st) /\
    forall n st', ticks rand fuel n st = Some st' ->
      snake st' = snake st /\ peach st' = peach st /\ score st' = score st /\
      st' = st.
Proof.
  intros rand fuel st H. split.
  - apply moveSnake_idle. exact H.
  - intros n st' T. rewrite (ticks_idle rand fuel n st H) in T.
    injection T as <-. repeat split.
Qed.

Lemma moveSnake_outside_ACTIVE_witness :
  phase (collided scenario_B) = LOST /\
  moveSnake rand_low 0 (collided scenario_B) = Some (NotRunning, collided scenario_B).
Proof.
  split.
  - reflexivity.
  - apply (moveSnake_outside_ACTIVE_is_noop rand_low 0 (collided scenario_B)).
    vm_compute. discriminate.
Defined.

(** * Collisions *)

(** C4: in the ACTIVE phase, when the head computed by the tick lies outside
    the grid, the wall branch runs: [gameOver] is set and [isPlaying] cleared,
    so the phase is LOST, and the snake is the one before the tick. *)
Theorem moveSnake_wall_collision :
  forall (rand : nat -> float) (fuel : nat) (st : State) (head : Position),
    phase st = ACTIVE ->
    newHead st = Some head ->
    ~ in_grid head ->
    moveSnake rand fuel st = Some (WallCollision, collided st) /\
    phase (collided st) = LOST /\
    snake (collided st) = snake st /\
    gameOver (collided st) = true /\
    isPlaying (collided st) = false.
Proof.
  intros rand fuel st head A N W. split.
  - rewrite (moveSnake_active rand fuel st A).
    unfold newHead in N. destruct (snake st) as [| first rest]; [discriminate |].
    injection N as N. cbv zeta. rewrite N.
    apply hits_wall_true in W. rewrite W. reflexivity.
  - split; [| repeat split].
    apply phase_collided. apply phase_ACTIVE in A. tauto.
Qed.

(** Scenario B: snake [(0,5)], heading LEFT; the head computed has x = -1. *)
Lemma moveSnake_wall_collision_witness :
  newHead scenario_B = Some (mkPosition (-1) 5) /\
  moveSnake rand_low 0 scenario_B = Some (WallCollision, collided scenario_B) /\
  phase (collided scenario_B) = LOST /\
  snake (collided scenario_B) = [mkPosition 0 5].
Proof.
  split; [reflexivity |].
  destruct (moveSnake_wall_collision rand_low 0 scenario_B (mkPosition (-1) 5))
    as [M [P [S _]]].
  - reflexivity.
  - reflexivity.
  - unfold in_grid; simpl; lia.
  - split; [exact M | split; [exact P | exact S]].
Defined.

(** C2: in the ACTIVE phase, when the head computed by the tick is a cell of
    the snake as it is before the tick (its last cell included: the test runs
    before any cell is removed), the tick ends the game: [gameOver] is set and
    [isPlaying] cleared, so the phase is LOST, and the snake is unchanged.  The
    branch that runs is the self-collision one whenever the snake lies in the
    grid. *)
Theorem moveSnake_self_collision :
  forall (rand : nat -> float) (fuel : nat) (st : State) (head : Position),
    phase st = ACTIVE ->
    newHead st = Some head ->
    In head (snake st) ->
    exists branch,
      moveSnake rand fuel st = Some (branch, collided st) /\
      phase (collided st) = LOST /\
      snake (collided st) = snake st /\
      gameOver (collided st) = true /\
      isPlaying (collided st) = false /\
      (Forall in_grid (snake st) -> branch = SelfCollision).
Proof.
  intros rand fuel st head A N I.
  assert (L : phase (collided st) = LOST).
  { apply phase_collided. apply phase_ACTIVE in A. tauto. }
  rewrite (moveSnake_active rand fuel st A).
  unfold newHead in N. destruct (snake st) as [| first rest] eqn:E; [discriminate |].
  injection N as N. cbv zeta. rewrite N.
  destruct (hits_wall head) eqn:W.
  - exists WallCollision. repeat split; try assumption.
    intros G. rewrite Forall_forall in G. apply G in I.
    apply hits_wall_false in I. congruence.
  - apply some_at_In in I. rewrite I.
    exists SelfCollision. repeat split; assumption.
Qed.

(** The head computed is the last cell of the snake. *)
Lemma moveSnake_self_collision_witness :
  newHead onto_tail = Some (mkPosition 10 10) /\
  last (snake onto_tail) (mkPosition 0 0) = mkPosition 10 10 /\
  moveSnake rand_low 0 onto_tail = Some (SelfCollision, collided onto_tail).
Proof.
  split; [reflexivity | split; [reflexivity |]].
  destruct (moveSnake_self_collision rand_low 0 onto_tail (mkPosition 10 10))
    as [branch [M [_ [_ [_ [_ B]]]]]].
  - reflexivity.
  - reflexivity.
  - simpl. right. left. reflexivity.
  - rewrite M. rewrite B; [reflexivity |].
    repeat constructor; simpl; lia.
Defined.

(** * The loop of [generatePeach] *)

Lemma free_draw_shift (rand : nat -> float) (i : nat) (cells : list Position) (k : nat) :
  free_draw rand (2 + i) cells k <-> free_draw rand i cells (S k).
Proof.
  unfold free_draw.
  replace (2 + i + 2 * k)%nat with (i + 2 * S k)%nat by lia. tauto.
Qed.

Lemma generatePeach_step (rand : nat -> float) (fuel i : nat) (cells : list Position) :
  generatePeach rand (S fuel) i cells =
    if some_at (random_cell rand i) cells
    then generatePeach rand fuel (2 + i) cells
    else Some (random_cell rand i, (2 + i)%nat).
Proof. reflexivity. Qed.

(** When some draw misses the snake, the loop leaves at the first such draw,
    as soon as it has the fuel to reach it. *)
Lemma generatePeach_first_free (rand : nat -> float) (cells : list Position) :
  forall k i,
    free_draw rand i cells k ->
    exists k', (k' <= k)%nat /\
      free_draw rand i cells k' /\
      (forall m, (m < k')%nat -> ~ free_draw rand i cells m) /\
      forall fuel, (k' < fuel)%nat ->
        generatePeach rand fuel i cells =
          Some (random_cell rand (i + 2 * k'), (2 + (i + 2 * k'))%nat).
Proof.
  induction k as [| k IH]; intros i F.
  - exists 0%nat. split; [lia |]. split; [exact F |]. split; [intros m Hm; lia |].
    intros fuel Hf. destruct fuel as [| fuel]; [lia |].
    rewrite generatePeach_step. unfold free_draw in F.
    replace (i + 2 * 0)%nat with i in * by lia. rewrite F. reflexivity.
  - destruct (some_at (random_cell rand i) cells) eqn:D.
    + apply free_draw_shift in F. destruct (IH _ F) as [k' [Hle [Hf [Hm Hg]]]].
      exists (S k'). split; [lia |]. split; [apply free_draw_shift; exact Hf |].
      split.
      * intros m Hlt. destruct m as [| m].
        -- unfold free_draw. replace (i + 2 * 0)%nat with i by lia. congruence.
        -- intros Fm. apply free_draw_shift in Fm. apply (Hm m); [lia | exact Fm].
      * intros fuel Hfu. destruct fuel as [| fuel]; [lia |].
        rewrite generatePeach_step, D, Hg by lia.
        replace (2 + i + 2 * k')%nat with (i + 2 * S k')%nat by lia. reflexivity.
    + exists 0%nat. split; [lia |]. replace (i + 2 * 0)%nat with i by lia.
      split; [unfold free_draw; replace (i + 2 * 0)%nat with i by lia; exact D |].
      split; [intros m Hm; lia |].
      intros fuel Hfu. destruct fuel as [| fuel]; [lia |].
      rewrite generatePeach_step, D. reflexivity.
Qed.

(** What the loop returns is a draw that misses the snake. *)
Lemma generatePeach_Some (rand : nat -> float) (cells : list Position) :
  forall fuel i p j,
    generatePeach rand fuel i cells = Some (p, j) ->
    exists k, (k < fuel)%nat /\ p = random_cell rand (i + 2 * k) /\
      j = (2 + (i + 2 * k))%nat /\ free_draw rand i cells k.
Proof.
  induction fuel as [| fuel IH]; intros i p j G.
  - discriminate.
  - rewrite generatePeach_step in G.
    destruct (some_at (random_cell rand i) cells) eqn:D.
    + destruct (IH _ _ _ G) as [k [Hk [Hp [Hj Hf]]]].
      exists (S k). split; [lia |].
      replace (i + 2 * S k)%nat with (2 + i + 2 * k)%nat by lia.
      split; [exact Hp | split; [exact Hj |]].
      unfold free_draw in *.
      replace (i + 2 * S k)%nat with (2 + i + 2 * k)%nat by lia. exact Hf.
    + injection G as <- <-. exists 0%nat. split; [lia |].
      replace (i + 2 * 0)%nat with i by lia.
      split; [reflexivity | split; [reflexivity |]].
      unfold free_draw. replace (i + 2 * 0)%nat with i by lia. exact D.
Qed.

Lemma generatePeach_not_In (rand : nat -> float) (cells : list Position)
  (fuel i : nat) (p : Position) (j : nat) :
  generatePeach rand fuel i cells = Some (p, j) -> ~ In p cells.
Proof.
  intros G. destruct (generatePeach_Some _ _ _ _ _ _ G) as [k [_ [-> [_ F]]]].
  apply some_at_not_In. exact F.
Qed.

(** While every draw lands on the snake the loop goes on. *)
Lemma generatePeach_None (rand : nat -> float) (cells : list Position) (i : nat) :
  (forall k, ~ free_draw rand i cells k) ->
  forall fuel, generatePeach rand fuel i cells = None.
Proof.
  intros H fuel. destruct (generatePeach rand fuel i cells) as [[p j] |] eqn:G.
  - destruct (generatePeach_Some _ _ _ _ _ _ G) as [k [_ [_ [_ F]]]].
    exfalso. exact (H k F).
  - reflexivity.
Qed.

(** * Moving and growing *)

Lemma length_removelast_cons (A : Type) (a : A) (l : list A) :
  List.length (removelast (a :: l)) = List.length l.
Proof.
  revert a. induction l as [| b l IH]; intros a.
  - reflexivity.
  - change (removelast (a :: b :: l)) with (a :: removelast (b :: l)).
    cbn [List.length]. f_equal. apply IH.
Qed.

(** A tick of the ACTIVE phase that is no collision puts the computed head at
    the front of the snake and keeps the direction. *)
Lemma moveSnake_moves (rand : nat -> float) (fuel : nat) (st : State)
  (first : Position) (rest : list Position) (branch : Branch) (st' : State) :
  phase st = ACTIVE ->
  snake st = first :: rest ->
  moveSnake rand fuel st = Some (branch, st') ->
  branch <> WallCollision -> branch <> SelfCollision ->
  (exists tl, snake st' = advance (direction st) first :: tl) /\
  direction st' = direction st.
Proof.
  intros A E M NW NS. rewrite (moveSnake_active rand fuel st A), E in M.
  cbv zeta in M.
  destruct (hits_wall (advance (direction st) first)).
  { injection M as <- _. contradiction. }
  destruct (some_at (advance (direction st) first) (first :: rest)).
  { injection M as <- _. contradiction. }
  destruct (same_cell (advance (direction st) first) (peach st)).
  - destruct (score st + 1 <? MAX_PEACHES).
    + destruct (generatePeach rand fuel (randomCalls st)
                  (advance (direction st) first :: first :: rest)) as [[p j] |];
        [| discriminate].
      injection M as _ <-. simpl. split; [eexists; reflexivity | reflexivity].
    + injection M as _ <-. simpl. split; [eexists; reflexivity | reflexivity].
  - injection M as _ <-. simpl snake. simpl direction.
    split; [| reflexivity].
    exists (removelast (first :: rest)). reflexivity.
Qed.

(** C3: for a tick of the ACTIVE phase that is no collision, the snake is one
    cell longer when the computed head is the peach and as long as before
    otherwise.  The tick returns whenever it needs no new peach, and, when it
    needs one, as soon as one of the draws within the fuel misses the grown
    snake. *)
Theorem moveSnake_length :
  forall (rand : nat -> float) (fuel : nat) (st : State),
    phase st = ACTIVE ->
    (forall branch st',
        moveSnake rand fuel st = Some (branch, st') ->
        branch <> WallCollision -> branch <> SelfCollision ->
        (newHead st = Some (peach st) ->
         List.length (snake st') = S (List.length (snake st))) /\
        (newHead st <> Some (peach st) ->
         List.length (snake st') = List.length (snake st))) /\
    (newHead st <> Some (peach st) \/ MAX_PEACHES <= score st + 1 ->
     exists branch st', moveSnake rand fuel st = Some (branch, st')) /\
    (forall head k,
        newHead st = Some head ->
        free_draw rand (randomCalls st) (head :: snake st) k ->
        (k < fuel)%nat ->
        exists branch st', moveSnake rand fuel st = Some (branch, st')).
Proof.
  intros rand fuel st A. rewrite (moveSnake_active rand fuel st A).
  unfold newHead. destruct (snake st) as [| first rest] eqn:E.
  { split; [| split].
    - intros branch st' M _ _. injection M as _ <-. rewrite E.
      split; [discriminate | reflexivity].
    - intros _. eauto.
    - intros head k N. discriminate. }
  cbv zeta. set (head := advance (direction st) first).
  destruct (hits_wall head).
  { split; [| split]; [| eauto | eauto].
    intros branch st' M NW _. injection M as <- _. contradiction. }
  destruct (some_at head (first :: rest)).
  { split; [| split]; [| eauto | eauto].
    intros branch st' M _ NS. injection M as <- _. contradiction. }
  destruct (same_cell head (peach st)) eqn:P.
  - apply same_cell_true in P.
    destruct (Z.ltb_spec (score st + 1) MAX_PEACHES) as [Lt | Ge].
    + split; [| split].
      * intros branch st' M _ _.
        destruct (generatePeach rand fuel (randomCalls st) (head :: first :: rest))
          as [[p j] |]; [| discriminate].
        injection M as _ <-. simpl. split; [reflexivity |].
        intros N. exfalso. apply N. rewrite P. reflexivity.
      * intros [N | G]; [exfalso; apply N; rewrite P; reflexivity | lia].
      * intros head' k N F Hk. injection N as <-.
        destruct (generatePeach_first_free _ _ _ _ F) as [k' [Hle [_ [_ G]]]].
        rewrite (G fuel) by lia. eauto.
    + split; [| split]; [| eauto | eauto].
      intros branch st' M _ _. injection M as _ <-. simpl.
      split; [reflexivity |].
      intros N. exfalso. apply N. rewrite P. reflexivity.
  - split; [| split]; [| eauto | eauto].
    intros branch st' M _ _.
    pose proof (length_removelast_cons _ head (first :: rest)) as LR.
    injection M as _ <-. split; [| intros _; exact LR].
    intros N. injection N as N. apply same_cell_true in N. congruence.
Qed.

(** Scenario A: the peach is eaten, the snake has two cells and a new peach
    is drawn off the snake. *)
Lemma moveSnake_length_witness :
  moveSnake rand_low 1 scenario_A =
    Some (PeachCollected,
          mkState [mkPosition 11 10; mkPosition 10 10] RIGHT (mkPosition 0 0)
                  false 1 true 2) /\
  (forall branch st',
      moveSnake rand_low 1 scenario_A = Some (branch, st') ->
      branch <> WallCollision -> branch <> SelfCollision ->
      List.length (snake st') = 2%nat).
Proof.
  split; [reflexivity |].
  intros branch st' M NW NS.
  destruct (moveSnake_length rand_low 1 scenario_A) as [L _].
  - reflexivity.
  - destruct (L branch st' M NW NS) as [G _]. apply G. reflexivity.
Defined.

(** * Direction inputs *)

Lemma advance_back (d : Direction) (p : Position) :
  advance (opposite d) (advance d p) = p.
Proof.
  destruct p as [px py]. destruct d; unfold advance; simpl; f_equal; lia.
Qed.

(** C5: an input that asks for the exact opposite of the current direction,
    from a touch button or from a key, leaves the state as it is, whatever the
    phase; the next tick is then the tick of the untouched state, and when it
    moves the snake its new head is the old head moved one step in the
    unchanged direction. *)
Theorem reversal_is_ignored :
  forall (st : State),
    handleMobileControl (opposite (direction st)) st = st /\
    (forall event_key,
        toLowerCase event_key = wasd (opposite (direction st)) ->
        handleKeyPress event_key st = st) /\
    (forall rand fuel,
        moveSnake rand fuel (handleMobileControl (opposite (direction st)) st) =
        moveSnake rand fuel st) /\
    (forall rand fuel first rest branch st',
        phase st = ACTIVE ->
        snake st = first :: rest ->
        moveSnake rand fuel (handleMobileControl (opposite (direction st)) st) =
          Some (branch, st') ->
        branch <> WallCollision -> branch <> SelfCollision ->
        exists tl, snake st' = advance (direction st) first :: tl).
Proof.
  intros st.
  assert (T : handleMobileControl (opposite (direction st)) st = st).
  { unfold handleMobileControl.
    destruct (gameOver st && (score st <? MAX_PEACHES)); [reflexivity |].
    destruct (direction st); reflexivity. }
  split; [exact T |]. split; [| split].
  - intros event_key K. unfold handleKeyPress. rewrite K.
    destruct (gameOver st && (score st <? MAX_PEACHES)); [reflexivity |].
    destruct (direction st); reflexivity.
  - intros rand fuel. rewrite T. reflexivity.
  - intros rand fuel first rest branch st' A E M NW NS. rewrite T in M.
    destruct (moveSnake_moves rand fuel st first rest branch st' A E M NW NS)
      as [H _]. exact H.
Qed.

(** Scenario C: heading RIGHT, LEFT is asked for (by touch, by the key "a" or
    "A"); the tick moves the head from (5,5) to (6,5). *)
Lemma reversal_is_ignored_witness :
  handleMobileControl LEFT scenario_C = scenario_C /\
  handleKeyPress "a" scenario_C = scenario_C /\
  handleKeyPress "A" scenario_C = scenario_C /\
  option_map (fun r => snake (snd r))
             (moveSnake rand_low 0 (handleMobileControl LEFT scenario_C)) =
    Some [mkPosition 6 5; mkPosition 5 5; mkPosition 4 5].
Proof.
  destruct (reversal_is_ignored scenario_C) as [T [K [M _]]].
  split; [exact T |].
  split; [apply K; reflexivity |].
  split; [apply K; reflexivity |].
  change (opposite (direction scenario_C)) with LEFT in M.
  rewrite M. reflexivity.
Defined.

(** C10: two inputs between two ticks can turn the snake round.  Heading
    RIGHT, after a tick that moved the head one step to the right and left the
    game ACTIVE, UP is accepted and stored at once, then LEFT is accepted
    because it is compared with UP; the head the next tick computes is the
    cell the head has just left, and a next tick that moves puts the head
    back there. *)
Theorem two_inputs_reverse :
  forall (rand : nat -> float) (fuel : nat) (st : State) (first : Position)
         (rest : list Position) (branch : Branch) (st1 : State),
    phase st = ACTIVE ->
    direction st = RIGHT ->
    snake st = first :: rest ->
    moveSnake rand fuel st = Some (branch, st1) ->
    phase st1 = ACTIVE ->
    let st2 := handleKeyPress "a" (handleKeyPress "w" st1) in
    (exists tl, snake st1 = advance RIGHT first :: tl) /\
    direction st1 = RIGHT /\
    direction (handleKeyPress "w" st1) = UP /\
    direction st2 = LEFT /\
    handleMobileControl LEFT (handleMobileControl UP st1) = st2 /\
    newHead st2 = Some first /\
    (forall fuel' branch' st3,
        moveSnake rand fuel' st2 = Some (branch', st3) ->
        branch' <> WallCollision -> branch' <> SelfCollision ->
        exists tl, snake st3 = first :: tl).
Proof.
  intros rand fuel st first rest branch st1 A D E M A1 st2.
  assert (NC : branch <> WallCollision /\ branch <> SelfCollision).
  { rewrite (moveSnake_active rand fuel st A), E in M. cbv zeta in M.
    destruct (hits_wall (advance (direction st) first)).
    { injection M as _ <-. apply phase_ACTIVE in A1. simpl in A1.
      destruct A1 as [A1 _]. discriminate. }
    destruct (some_at (advance (direction st) first) (first :: rest)).
    { injection M as _ <-. apply phase_ACTIVE in A1. simpl in A1.
      destruct A1 as [A1 _]. discriminate. }
    destruct (same_cell (advance (direction st) first) (peach st));
      [destruct (score st + 1 <? MAX_PEACHES);
       [destruct (generatePeach rand fuel (randomCalls st)
                    (advance (direction st) first :: first :: rest))
          as [[p j] |]; [| discriminate] |] |];
      injection M as <- _; split; discriminate. }
  destruct NC as [NW NS].
  destruct (moveSnake_moves rand fuel st first rest branch st1 A E M NW NS)
    as [[tl S1] D1].
  rewrite D in S1, D1.
  assert (G : gameOver st1 && (score st1 <? MAX_PEACHES) = false).
  { apply phase_ACTIVE in A1. destruct A1 as [-> _]. reflexivity. }
  assert (W : handleKeyPress "w" st1 = setDirection UP st1).
  { unfold handleKeyPress. rewrite G, D1. reflexivity. }
  assert (W2 : st2 = setDirection LEFT (setDirection UP st1)).
  { unfold st2. rewrite W. unfold handleKeyPress. simpl gameOver. simpl score.
    rewrite G. reflexivity. }
  split; [exists tl; exact S1 |]. split; [exact D1 |].
  split; [rewrite W; reflexivity |]. split; [rewrite W2; reflexivity |].
  split.
  { rewrite W2. unfold handleMobileControl at 2. rewrite G, D1. simpl.
    unfold handleMobileControl. simpl. rewrite G. reflexivity. }
  assert (N2 : newHead st2 = Some first).
  { rewrite W2. unfold newHead. simpl. rewrite S1.
    f_equal. apply (advance_back RIGHT first). }
  split; [exact N2 |].
  intros fuel' branch' st3 M3 NW3 NS3.
  assert (A2 : phase st2 = ACTIVE).
  { rewrite W2. exact A1. }
  assert (S2 : snake st2 = advance RIGHT first :: tl).
  { rewrite W2. exact S1. }
  destruct (moveSnake_moves rand fuel' st2 _ _ branch' st3 A2 S2 M3 NW3 NS3)
    as [[tl' S3] _].
  exists tl'. rewrite S3. f_equal.
  replace (direction st2) with LEFT by (rewrite W2; reflexivity).
  apply (advance_back RIGHT first).
Qed.

(** A game of one cell: the first tick takes the head from (10,10) to (11,10);
    after "w" and "a" the second tick takes it back to (10,10). *)
Lemma two_inputs_reverse_witness :
  moveSnake rand_low 0 just_started =
    Some (TailRemoved, playing [mkPosition 11 10] RIGHT DEFAULT_PEACH 0) /\
  direction (handleKeyPress "w" (playing [mkPosition 11 10] RIGHT DEFAULT_PEACH 0))
    = UP /\
  direction (handleKeyPress "a"
               (handleKeyPress "w" (playing [mkPosition 11 10] RIGHT DEFAULT_PEACH 0)))
    = LEFT /\
  moveSnake rand_low 0
    (handleKeyPress "a"
       (handleKeyPress "w" (playing [mkPosition 11 10] RIGHT DEFAULT_PEACH 0))) =
    Some (TailRemoved, playing [mkPosition 10 10] LEFT DEFAULT_PEACH 0).
Proof.
  split; [reflexivity |].
  destruct (two_inputs_reverse rand_low 0 just_started (mkPosition 10 10) []
              TailRemoved (playing [mkPosition 11 10] RIGHT DEFAULT_PEACH 0))
    as [_ [_ [U [L _]]]]; try reflexivity.
  split; [exact U |]. split; [exact L |]. reflexivity.
Defined.

(** * Runs *)

Lemma run_reachable (rand : nat -> float) (fuel : nat) (events : list Event) :
  forall st st',
    reachable rand st -> run rand fuel events st = Some st' -> reachable rand st'.
Proof.
  induction events as [| e rest IH]; intros st st' R H; simpl in H.
  - injection H as <-. exact R.
  - destruct (handle rand fuel e st) as [st1 |] eqn:E; [| discriminate].
    apply (IH st1 st'); [| exact H].
    apply (reachable_handle rand st e fuel st1 R E).
Qed.

Lemma winning_run : run rand_win 1 winning_events initialState = Some won_state.
Proof. vm_compute. reflexivity. Qed.

Lemma won_state_reachable : reachable rand_win won_state.
Proof.
  apply (run_reachable rand_win 1 winning_events initialState).
  - apply reachable_initial.
  - exact winning_run.
Qed.

(** * What the handlers keep *)

(** An input handler either ignores the input or stores a direction. *)
Lemma handleMobileControl_cases (d : Direction) (st : State) :
  handleMobileControl d st = st \/
  exists d', handleMobileControl d st = setDirection d' st.
Proof.
  unfold handleMobileControl.
  destruct (gameOver st && (score st <? MAX_PEACHES)); [left; reflexivity |].
  destruct d, (direction st); simpl; eauto.
Qed.

Lemma handleKeyPress_cases (k : string) (st : State) :
  handleKeyPress k st = st \/
  exists d', handleKeyPress k st = setDirection d' st.
Proof.
  unfold handleKeyPress.
  destruct (gameOver st && (score st <? MAX_PEACHES)); [left; reflexivity |].
  cbv zeta.
  destruct (String.eqb (toLowerCase k) "w");
    [destruct (negb (Direction_eqb (direction st) DOWN)); eauto |].
  destruct (String.eqb (toLowerCase k) "s");
    [destruct (negb (Direction_eqb (direction st) UP)); eauto |].
  destruct (String.eqb (toLowerCase k) "a");
    [destruct (negb (Direction_eqb (direction st) RIGHT)); eauto |].
  destruct (String.eqb (toLowerCase k) "d");
    [destruct (negb (Direction_eqb (direction st) LEFT)); eauto |].
  left; reflexivity.
Qed.

(** A property of the snake, the peach and the score is kept by every event
    once the tick, the start and the reset keep or establish it. *)
Lemma handle_keeps (I : list Position -> Position -> Z -> Prop)
  (rand : nat -> float) (fuel : nat) (e : Event) (st st' : State) :
  (forall branch st1, moveSnake rand fuel st = Some (branch, st1) ->
     I (snake st1) (peach st1) (score st1)) ->
  (forall p j, generatePeach rand fuel (randomCalls st) INITIAL_SNAKE = Some (p, j) ->
     I INITIAL_SNAKE p 0) ->
  I INITIAL_SNAKE DEFAULT_PEACH 0 ->
  I (snake st) (peach st) (score st) ->
  handle rand fuel e st = Some st' ->
  I (snake st') (peach st') (score st').
Proof.
  intros HT HS HR H0 H. destruct e; simpl in H.
  - destruct (moveSnake rand fuel st) as [[branch st1] |] eqn:M; [| discriminate].
    injection H as <-. exact (HT branch st1 eq_refl).
  - injection H as <-.
    destruct (handleKeyPress_cases event_key st) as [-> | [d' ->]]; exact H0.
  - injection H as <-.
    destruct (handleMobileControl_cases newDirection st) as [-> | [d' ->]]; exact H0.
  - unfold startGame in H.
    destruct (generatePeach rand fuel (randomCalls st) INITIAL_SNAKE)
      as [[p j] |] eqn:G; [| discriminate].
    injection H as <-. exact (HS p j eq_refl).
  - injection H as <-. exact HR.
Qed.

Lemma In_removelast (A : Type) (a : A) (l : list A) :
  In a (removelast l) -> In a l.
Proof.
  induction l as [| b l IH]; [intros [] |].
  destruct l as [| c l]; [intros [] |].
  change (removelast (b :: c :: l)) with (b :: removelast (c :: l)).
  intros [-> | H]; [left; reflexivity | right; exact (IH H)].
Qed.

(** * The snake stays in the grid *)

Lemma moveSnake_in_grid (rand : nat -> float) (fuel : nat) (st : State)
  (branch : Branch) (st' : State) :
  Forall in_grid (snake st) ->
  moveSnake rand fuel st = Some (branch, st') ->
  Forall in_grid (snake st').
Proof.
  intros F M. unfold moveSnake in M.
  destruct (gameOver st || negb (isPlaying st) || (score st >=? MAX_PEACHES)).
  { injection M as _ <-. exact F. }
  cbv zeta in M. destruct (snake st) as [| first rest] eqn:E.
  { injection M as _ <-. rewrite E. exact F. }
  set (head := advance (direction st) first) in M.
  destruct (hits_wall head) eqn:W.
  { injection M as _ <-. exact F. }
  apply hits_wall_false in W.
  destruct (some_at head (first :: rest)).
  { injection M as _ <-. exact F. }
  assert (F' : Forall in_grid (head :: first :: rest)) by (constructor; assumption).
  destruct (same_cell head (peach st)).
  - destruct (score st + 1 <? MAX_PEACHES).
    + destruct (generatePeach rand fuel (randomCalls st) (head :: first :: rest))
        as [[p j] |]; [| discriminate].
      injection M as _ <-. exact F'.
    + injection M as _ <-. exact F'.
  - assert (R : Forall in_grid (removelast (head :: first :: rest))).
    { rewrite Forall_forall in *. intros c Hc.
      apply F'. apply In_removelast. exact Hc. }
    injection M as _ <-. exact R.
Qed.

Lemma INITIAL_SNAKE_in_grid : Forall in_grid INITIAL_SNAKE.
Proof. repeat constructor; simpl; unfold GRID_SIZE; lia. Qed.

(** C9: in every state of every run, every cell of the snake lies in the grid,
    and so does every cell of the snake after one more tick, whatever the
    phase. *)
Theorem snake_stays_in_grid :
  forall (rand : nat -> float) (st : State),
    reachable rand st ->
    Forall in_grid (snake st) /\
    (forall fuel branch st',
        moveSnake rand fuel st = Some (branch, st') ->
        Forall in_grid (snake st')).
Proof.
  intros rand st R.
  assert (F : Forall in_grid (snake st)).
  { induction R as [| st e fuel st' R IH H].
    - exact INITIAL_SNAKE_in_grid.
    - apply (handle_keeps (fun body _ _ => Forall in_grid body) rand fuel e st st');
        try assumption.
      + intros branch st1 M. exact (moveSnake_in_grid rand fuel st branch st1 IH M).
      + intros _ _ _. exact INITIAL_SNAKE_in_grid.
      + exact INITIAL_SNAKE_in_grid. }
  split; [exact F |].
  intros fuel branch st' M. exact (moveSnake_in_grid rand fuel st branch st' F M).
Qed.

(** The eleven cells of the game won in ten ticks. *)
Lemma snake_stays_in_grid_witness :
  List.length (snake won_state) = 11%nat /\ Forall in_grid (snake won_state).
Proof.
  split; [reflexivity |].
  destruct (snake_stays_in_grid rand_win won_state) as [F _].
  - exact won_state_reachable.
  - exact F.
Defined.

(** * The peach and the snake *)

Lemma peach_placed_initial : peach_placed INITIAL_SNAKE DEFAULT_PEACH 0.
Proof.
  split.
  - intros _ [H | []]. discriminate.
  - unfold MAX_PEACHES. lia.
Qed.

Lemma moveSnake_peach_placed (rand : nat -> float) (fuel : nat) (st : State)
  (branch : Branch) (st' : State) :
  peach_placed (snake st) (peach st) (score st) ->
  moveSnake rand fuel st = Some (branch, st') ->
  peach_placed (snake st') (peach st') (score st').
Proof.
  intros I M.
  destruct (gameOver st || negb (isPlaying st) || (score st >=? MAX_PEACHES)) eqn:G.
  { unfold moveSnake in M. rewrite G in M. injection M as _ <-. exact I. }
  apply guard_phase in G. rewrite (moveSnake_active rand fuel st G) in M.
  apply phase_ACTIVE in G. destruct G as [_ [_ Lt]].
  destruct I as [I _]. specialize (I Lt).
  destruct (snake st) as [| first rest] eqn:E.
  { injection M as _ <-. rewrite E. split; [intros _ [] | lia]. }
  cbv zeta in M. set (head := advance (direction st) first) in M.
  destruct (hits_wall head).
  { injection M as _ <-. simpl. rewrite E. split; [intros _; exact I | lia]. }
  destruct (some_at head (first :: rest)).
  { injection M as _ <-. simpl. rewrite E. split; [intros _; exact I | lia]. }
  destruct (same_cell head (peach st)) eqn:P.
  - apply same_cell_true in P.
    destruct (Z.ltb_spec (score st + 1) MAX_PEACHES) as [Lt' | Ge].
    + destruct (generatePeach rand fuel (randomCalls st) (head :: first :: rest))
        as [[p j] |] eqn:Gp; [| discriminate].
      injection M as _ <-. simpl. split; [| lia].
      intros _. exact (generatePeach_not_In _ _ _ _ _ _ Gp).
    + injection M as _ <-. simpl. split; [lia |].
      intros _. exists (first :: rest). rewrite P. reflexivity.
  - assert (N : ~ In (peach st) (removelast (head :: first :: rest))).
    { intros H. apply In_removelast in H. destruct H as [H | H].
      - rewrite H, same_cell_refl in P. discriminate.
      - exact (I H). }
    injection M as _ <-. split; [intros _; exact N | simpl; lia].
Qed.

Lemma reachable_peach_placed (rand : nat -> float) (st : State) :
  reachable rand st -> peach_placed (snake st) (peach st) (score st).
Proof.
  intros R. induction R as [| st e fuel st' R IH H].
  - exact peach_placed_initial.
  - apply (handle_keeps peach_placed rand fuel e st st'); try assumption.
    + intros branch st1 M. exact (moveSnake_peach_placed rand fuel st branch st1 IH M).
    + intros p j G. split; [| unfold MAX_PEACHES; lia].
      intros _. exact (generatePeach_not_In _ _ _ _ _ _ G).
    + exact peach_placed_initial.
Qed.

(** C1, as the code has it: in every state of every run whose phase is not
    WON the peach is not a cell of the snake; the tick that brings the score
    to [MAX_PEACHES] generates no peach, so in the WON phase the peach is the
    cell of the snake's head. *)
Theorem peach_off_snake_until_won :
  forall (rand : nat -> float) (st : State),
    reachable rand st ->
    (phase st <> WON -> ~ In (peach st) (snake st)) /\
    (phase st = WON -> exists tl, snake st = peach st :: tl).
Proof.
  intros rand st R. destruct (reachable_peach_placed rand st R) as [Off On].
  split.
  - intros NW. apply Off.
    destruct (Z.lt_ge_cases (score st) MAX_PEACHES) as [Lt | Ge]; [exact Lt |].
    exfalso. apply NW. apply phase_WON. exact Ge.
  - intros W. apply On. apply phase_WON. exact W.
Qed.

Lemma peach_off_snake_until_won_witness :
  (phase initialState = IDLE /\ ~ In (peach initialState) (snake initialState)) /\
  (phase won_state = WON /\ exists tl, snake won_state = peach won_state :: tl).
Proof.
  split.
  - split; [reflexivity |].
    destruct (peach_off_snake_until_won rand_win initialState) as [Off _].
    + apply reachable_initial.
    + apply Off. vm_compute. discriminate.
  - split; [reflexivity |].
    destruct (peach_off_snake_until_won rand_win won_state) as [_ On].
    + exact won_state_reachable.
    + apply On. reflexivity.
Defined.

(** C1 fails as stated: the game won in ten ticks ends in a state of phase
    WON whose peach, at (10,0), is the head of the snake. *)
Lemma peach_on_snake_when_won :
  reachable rand_win won_state /\
  phase won_state = WON /\
  score won_state = MAX_PEACHES /\
  peach won_state = mkPosition 10 0 /\
  In (peach won_state) (snake won_state).
Proof.
  split; [exact won_state_reachable |].
  repeat split. simpl. left. reflexivity.
Qed.

(** * The peach generator *)

Lemma rand_low_const (i : nat) : rand_low i = mid 0.
Proof. unfold rand_low, rand_of. destruct i; reflexivity. Qed.

Lemma mid_0_unit : unit_interval (mid 0).
Proof. split; vm_compute; reflexivity. Qed.

Lemma rand_low_unit : forall i, unit_interval (rand_low i).
Proof. intros i. rewrite rand_low_const. exact mid_0_unit. Qed.

Lemma rand_low_cell (i : nat) : random_cell rand_low i = mkPosition 0 0.
Proof.
  unfold random_cell, random_coordinate. rewrite !rand_low_const.
  vm_compute. reflexivity.
Qed.

Lemma all_cells_in_grid (p : Position) : In p all_cells -> in_grid p.
Proof.
  intros H. apply hits_wall_false.
  assert (A : forallb (fun c => negb (hits_wall c)) all_cells = true)
    by (vm_compute; reflexivity).
  rewrite forallb_forall in A. specialize (A p H).
  destruct (hits_wall p); [discriminate | reflexivity].
Qed.

Lemma all_cells_complete (p : Position) : in_grid p -> In p all_cells.
Proof.
  destruct p as [px py]. unfold in_grid, all_cells, GRID_SIZE. simpl x. simpl y.
  intros [Hx Hy]. change (Z.to_nat 20) with 20%nat.
  apply in_flat_map. exists py. split.
  - apply in_map_iff. exists (Z.to_nat py). split; [lia |]. apply in_seq. lia.
  - apply in_map_iff. exists px. split; [reflexivity |].
    apply in_map_iff. exists (Z.to_nat px). split; [lia |]. apply in_seq. lia.
Qed.

Lemma all_cells_NoDup : NoDup all_cells.
Proof.
  assert (E : nodup Position_eq_dec all_cells = all_cells)
    by (vm_compute; reflexivity).
  rewrite <- E. apply NoDup_nodup.
Qed.

Lemma forallb_false_witness (A : Type) (f : A -> bool) (l : list A) :
  forallb f l = false -> exists a, In a l /\ f a = false.
Proof.
  induction l as [| a l IH]; simpl; [discriminate |].
  destruct (f a) eqn:F.
  - intros H. destruct (IH H) as [b [Hb Fb]]. exists b. auto.
  - intros _. exists a. auto.
Qed.

(** Fewer than [GRID_SIZE * GRID_SIZE] cells leave a cell of the grid free. *)
Lemma free_cell_exists (cells : list Position) :
  Z.of_nat (List.length cells) < GRID_SIZE * GRID_SIZE ->
  exists p, in_grid p /\ ~ In p cells.
Proof.
  intros L. destruct (forallb (fun p => some_at p cells) all_cells) eqn:F.
  - exfalso. rewrite forallb_forall in F.
    assert (I : incl all_cells cells).
    { intros p Hp. apply some_at_In. exact (F p Hp). }
    pose proof (NoDup_incl_length all_cells_NoDup I) as Len.
    assert (E : List.length all_cells = 400%nat) by (vm_compute; reflexivity).
    unfold GRID_SIZE in L. lia.
  - destruct (forallb_false_witness _ _ _ F) as [p [Hp Fp]].
    exists p. split; [exact (all_cells_in_grid p Hp) |].
    apply some_at_not_In. exact Fp.
Qed.

(** ** The binary64 product [Math.random() * GRID_SIZE] *)

Lemma digits2_pos_bounds (p : positive) :
  2 ^ (Z.pos (digits2_pos p) - 1) <= Z.pos p < 2 ^ Z.pos (digits2_pos p).
Proof.
  induction p as [p IH | p IH |]; cbn [digits2_pos].
  - rewrite Pos2Z.inj_succ, Pos2Z.inj_xI. unfold Z.succ.
    set (d := Z.pos (digits2_pos p)) in *.
    assert (D : 0 < d) by (unfold d; lia). clearbody d.
    assert (P : 2 ^ d = 2 * 2 ^ (d - 1)).
    { replace d with (d - 1 + 1) at 1 by lia. rewrite Z.pow_add_r, Z.pow_1_r by lia. lia. }
    replace (d + 1 - 1) with d by lia. rewrite Z.pow_add_r, Z.pow_1_r by lia. lia.
  - rewrite Pos2Z.inj_succ. change (Z.pos p~0) with (2 * Z.pos p). unfold Z.succ.
    set (d := Z.pos (digits2_pos p)) in *.
    assert (D : 0 < d) by (unfold d; lia). clearbody d.
    assert (P : 2 ^ d = 2 * 2 ^ (d - 1)).
    { replace d with (d - 1 + 1) at 1 by lia. rewrite Z.pow_add_r, Z.pow_1_r by lia. lia. }
    replace (d + 1 - 1) with d by lia. rewrite Z.pow_add_r, Z.pow_1_r by lia. lia.
  - simpl. lia.
Qed.

Lemma shifted_shr_1 (M k : Z) (mrs : shr_record) :
  shifted M k mrs -> shifted M (k + 1) (shr_1 mrs).
Proof.
  intros [Hk [H0 [Hm Hr]]]. destruct mrs as [m r s]. cbn [shr_m shr_r] in *.
  assert (P : 2 ^ (k + 1) = 2 * 2 ^ k)
    by (rewrite Z.pow_add_r, Z.pow_1_r by lia; lia).
  assert (Q : 0 < 2 ^ k) by (apply Z.pow_pos_nonneg; lia).
  unfold shifted. replace (k + 1 - 1) with k by lia. rewrite P.
  destruct m as [| p | p]; [| destruct p as [p | p |] |]; cbn [shr_1 shr_m shr_r].
  - repeat split; try lia; discriminate.
  - change (Z.pos p~1) with (2 * Z.pos p + 1) in Hm. repeat split; lia.
  - change (Z.pos p~0) with (2 * Z.pos p) in Hm. repeat split; try lia; discriminate.
  - repeat split; lia.
  - lia.
Qed.

Lemma shifted_iter_pos (M : Z) (n : positive) :
  forall k mrs, shifted M k mrs -> shifted M (k + Z.pos n) (SpecFloat.iter_pos shr_1 n mrs).
Proof.
  induction n as [n IH | n IH |]; intros k mrs H; cbn [iter_pos].
  - change (Z.pos n~1) with (2 * Z.pos n + 1).
    replace (k + (2 * Z.pos n + 1)) with (k + 1 + Z.pos n + Z.pos n) by lia.
    apply IH, IH, shifted_shr_1, H.
  - change (Z.pos n~0) with (2 * Z.pos n).
    replace (k + 2 * Z.pos n) with (k + Z.pos n + Z.pos n) by lia.
    apply IH, IH, H.
  - apply shifted_shr_1, H.
Qed.

Lemma shifted_shr_fexp (M E : Z) (mrs : shr_record) (e' : Z) :
  0 <= M ->
  shr_fexp prec emax M E loc_Exact = (mrs, e') ->
  shifted M (e' - E) mrs /\
  e' = Z.max E (fexp prec emax (Zdigits2 M + E)).
Proof.
  intros HM. unfold shr_fexp, shr. cbn [shr_record_of_loc].
  assert (I : shifted M 0 (Build_shr_record M false false)).
  { unfold shifted. cbn [shr_m shr_r]. repeat split; try lia; discriminate. }
  destruct (fexp prec emax (Zdigits2 M + E) - E) as [| n | n] eqn:N;
    intros H; injection H as <- <-.
  - replace (E - E) with 0 by lia. split; [exact I | lia].
  - replace (E + Z.pos n - E) with (0 + Z.pos n) by lia.
    split; [apply shifted_iter_pos; exact I | lia].
  - replace (E - E) with 0 by lia. split; [exact I | lia].
Qed.

Lemma round_nearest_even_shifted (M k : Z) (mrs : shr_record) :
  shifted M k mrs ->
  let m := round_nearest_even (shr_m mrs) (loc_of_shr_record mrs) in
  0 <= m /\ 2 * (m * 2 ^ k) <= 2 * M + 2 ^ k.
Proof.
  intros [Hk [H0 [Hm Hr]]]. destruct mrs as [m r s]. cbn [shr_m shr_r] in *.
  assert (Q : 0 < 2 ^ k) by (apply Z.pow_pos_nonneg; lia).
  destruct r.
  - destruct (Hr eq_refl) as [K1 Hh].
    assert (P : 2 ^ k = 2 * 2 ^ (k - 1)).
    { replace k with (k - 1 + 1) at 1 by lia. rewrite Z.pow_add_r, Z.pow_1_r by lia. lia. }
    assert (U : round_nearest_even m (loc_of_shr_record (Build_shr_record m true s)) <= m + 1
                /\ m <= round_nearest_even m (loc_of_shr_record (Build_shr_record m true s))).
    { destruct s; cbn; [lia |]. destruct (Z.even m); lia. }
    cbv zeta. nia.
  - assert (U : round_nearest_even m (loc_of_shr_record (Build_shr_record m false s)) = m).
    { destruct s; reflexivity. }
    cbv zeta. rewrite U. lia.
Qed.

(** The result of rounding the positive product [M * 2^E] to nearest even:
    never NaN; when finite, positive and at most half a unit of the last
    place above the product; infinite only for a huge product. *)
Lemma binary_round_aux_bound (M : positive) (E : Z) :
  let k := Z.max E (fexp prec emax (Z.pos (digits2_pos M) + E)) - E in
  match binary_round_aux prec emax false (Z.pos M) E loc_Exact with
  | S754_finite s m e =>
      s = false /\ E <= e /\ 2 * (Z.pos m * 2 ^ (e - E)) <= 2 * Z.pos M + 2 ^ k
  | S754_infinity _ =>
      emax - prec < E + k \/ 2 * 2 ^ (emax - E) <= 2 * Z.pos M + 2 ^ k
  | S754_nan => False
  | S754_zero _ => True
  end.
Proof.
  intros k. unfold binary_round_aux.
  destruct (shr_fexp prec emax (Z.pos M) E loc_Exact) as [mrs e1] eqn:S1.
  destruct (shifted_shr_fexp _ _ _ _ (Pos2Z.is_nonneg M) S1) as [I1 E1].
  cbn [Zdigits2] in E1.
  pose proof (round_nearest_even_shifted _ _ _ I1) as R. cbv zeta in R.
  set (m2 := round_nearest_even (shr_m mrs) (loc_of_shr_record mrs)) in *.
  destruct R as [R0 R1].
  destruct (shr_fexp prec emax m2 e1 loc_Exact) as [mrs2 e2] eqn:S2.
  destruct (shifted_shr_fexp _ _ _ _ R0 S2) as [[K2 [H20 [H2m _]]] E2].
  destruct I1 as [K1 _].
  assert (Q : 0 < 2 ^ (e1 - E)) by (apply Z.pow_pos_nonneg; lia).
  assert (Ek : k = e1 - E) by (unfold k; lia).
  destruct (shr_m mrs2) as [| m3 | m3] eqn:M3; [exact I | | lia].
  destruct (Z.leb_spec e2 (emax - prec)) as [Le | Gt].
  - split; [reflexivity |]. split; [lia |].
    replace (e2 - E) with ((e2 - e1) + (e1 - E)) by lia.
    rewrite Z.pow_add_r by lia. rewrite Ek. nia.
  - destruct (Z.le_gt_cases e1 (emax - prec)) as [L1 | G1]; [right | left; lia].
    unfold fexp, emin, prec, emax in *.
    destruct m2 as [| p2 | p2]; cbn [Zdigits2] in E2; [lia | | lia].
    pose proof (digits2_pos_bounds p2) as [D _].
    assert (T : 2 ^ (1024 - e1) <= 2 ^ (Z.pos (digits2_pos p2) - 1))
      by (apply Z.pow_le_mono_r; lia).
    assert (U : 2 ^ (1024 - E) = 2 ^ (1024 - e1) * 2 ^ (e1 - E)).
    { replace (1024 - E) with (1024 - e1 + (e1 - E)) by lia.
      apply Z.pow_add_r; lia. }
    rewrite U, Ek. nia.
Qed.

(** A double of [[0,1)]: a zero, or [m * 2^e] with [m < 2^53] and
    [-1074 <= e <= -53]. *)
Lemma unit_interval_decode (f : float) :
  unit_interval f ->
  (exists s, Prim2SF f = S754_zero s) \/
  (exists m e, Prim2SF f = S754_finite false m e /\
               -1074 <= e <= -53 /\ Z.pos m < 2 ^ 53).
Proof.
  intros [Lo Hi]. rewrite leb_spec in Lo. rewrite ltb_spec in Hi.
  assert (N0 : Prim2SF (Number 0) = S754_zero false) by (vm_compute; reflexivity).
  assert (N1 : Prim2SF (Number 1) = S754_finite false 4503599627370496 (-52))
    by (vm_compute; reflexivity).
  rewrite N0 in Lo. rewrite N1 in Hi. clear N0 N1.
  pose proof (Prim2SF_valid f) as V.
  destruct (Prim2SF f) as [s | s | | s m e].
  - left. exists s. reflexivity.
  - destruct s; [discriminate Lo | discriminate Hi].
  - discriminate Lo.
  - right. destruct s; [discriminate Lo |].
    exists m, e. split; [reflexivity |].
    cbn [valid_binary] in V. unfold bounded, canonical_mantissa in V.
    apply andb_true_iff in V. destruct V as [C _]. apply Z.eqb_eq in C.
    unfold fexp, emin, prec, emax in C.
    pose proof (digits2_pos_bounds m) as [D1 D2].
    unfold SFltb, SFcompare in Hi.
    destruct (Z.compare_spec e (-52)) as [Eq | Lt | Gt].
    + subst e. exfalso.
      rewrite Pos.compare_cont_spec in Hi. cbn [Pos.switch_Eq] in Hi.
      destruct (Pos.compare_spec m 4503599627370496) as [? | Lm | ?].
      * discriminate Hi.
      * assert (Dg : Z.pos (digits2_pos m) = 53) by (clear - C; lia).
        rewrite Dg in D1. change (2 ^ (53 - 1)) with 4503599627370496 in D1.
        assert (Lm' : Z.pos m < 4503599627370496) by exact Lm.
        clear - D1 Lm'. lia.
      * discriminate Hi.
    + assert (Dg : Z.pos (digits2_pos m) <= 53) by (clear - C; lia).
      split; [clear - C Lt; lia |].
      apply Z.lt_le_trans with (2 ^ Z.pos (digits2_pos m)); [exact D2 |].
      apply Z.pow_le_mono_r; clear - Dg; lia.
    + discriminate Hi.
Qed.

Lemma Number_GRID_SIZE :
  Prim2SF (Number GRID_SIZE) = S754_finite false 5629499534213120 (-48).
Proof. vm_compute. reflexivity. Qed.

(** The double product of a double of [[0,1)] and 20 is a zero or a positive
    finite double whose floor lies in [[0,20)]. *)
Lemma unit_times_GRID_SIZE (f : float) :
  unit_interval f ->
  ((exists s, Prim2SF (f * Number GRID_SIZE)%float = S754_zero s) \/
   (exists m e, Prim2SF (f * Number GRID_SIZE)%float = S754_finite false m e)) /\
  0 <= Math_floor (f * Number GRID_SIZE)%float < GRID_SIZE.
Proof.
  intros U. unfold Math_floor. rewrite mul_spec, Number_GRID_SIZE.
  destruct (unit_interval_decode f U) as [[s ->] | [m [e [-> [[E1 E2] Hm]]]]].
  - cbn. split; [left; eexists; reflexivity | unfold GRID_SIZE; lia].
  - unfold SF64mul, SFmul. cbn [xorb].
    pose proof (binary_round_aux_bound (m * 5629499534213120) (e + -48)) as B.
    cbv zeta in B.
    set (M := (m * 5629499534213120)%positive) in *.
    set (E := e + -48) in *.
    assert (HM : Z.pos M = Z.pos m * (5 * 2 ^ 50)).
    { unfold M. rewrite Pos2Z.inj_mul. reflexivity. }
    clearbody M.
    assert (P53 : 2 ^ 53 <= 2 ^ (- e)) by (apply Z.pow_le_mono_r; lia).
    assert (PE : 2 ^ (- E) = 2 ^ 48 * 2 ^ (- e)).
    { replace (- E) with (48 + - e) by (unfold E; lia). apply Z.pow_add_r; lia. }
    assert (DM : Z.pos (digits2_pos M) <= 106).
    { pose proof (digits2_pos_bounds M) as [D _].
      assert (L : Z.pos M < 2 ^ 106).
      { rewrite HM. change (2 ^ 106) with (2 ^ 53 * 2 ^ 53).
        change (5 * 2 ^ 50) with 5629499534213120.
        change (2 ^ 53) with 9007199254740992 in *. nia. }
      assert (T : Z.pos (digits2_pos M) - 1 < 106).
      { apply (Z.pow_lt_mono_r_iff 2); [lia | lia |].
        apply Z.le_lt_trans with (Z.pos M); [exact D | exact L]. }
      clear - T. lia. }
    set (k := Z.max E (fexp prec emax (Z.pos (digits2_pos M) + E)) - E) in *.
    assert (K : 0 <= k <= 53).
    { unfold k, fexp, emin, prec, emax, E. lia. }
    assert (P2k : 2 ^ k <= 2 ^ 53) by (apply Z.pow_le_mono_r; lia).
    assert (Bound : 2 * Z.pos M + 2 ^ k < 2 * (20 * 2 ^ (- E))).
    { rewrite HM, PE. change (2 ^ 53) with 9007199254740992 in *.
      change (5 * 2 ^ 50) with 5629499534213120.
      change (2 ^ 48) with 281474976710656. lia. }
    destruct (binary_round_aux prec emax false (Z.pos M) E loc_Exact)
      as [s | s | | s m3 e3].
    + split; [left; eexists; reflexivity | unfold GRID_SIZE; lia].
    + exfalso. destruct B as [B | B].
      * unfold prec, emax, E in B. lia.
      * assert (T : 2 ^ (emax - E) = 2 ^ 1024 * 2 ^ (- E)).
        { replace (emax - E) with (1024 + - E) by (unfold emax; lia).
          apply Z.pow_add_r; unfold E; lia. }
        assert (Q : 0 < 2 ^ (- E)) by (apply Z.pow_pos_nonneg; unfold E; lia).
        assert (Big : 20 < 2 ^ 1024) by reflexivity.
        rewrite T in B. nia.
    + contradiction.
    + destruct B as [-> [Le B]].
      split; [right; eexists; eexists; reflexivity |].
      split; [apply Z.shiftl_nonneg; lia |].
      assert (Lt : Z.pos m3 * 2 ^ (e3 - E) < 20 * 2 ^ (- E)) by lia.
      unfold GRID_SIZE.
      destruct (Z.le_gt_cases 0 e3) as [Pe | Ne].
      * rewrite Z.shiftl_mul_pow2 by exact Pe.
        assert (S : 2 ^ (e3 - E) = 2 ^ e3 * 2 ^ (- E)).
        { replace (e3 - E) with (e3 + - E) by lia.
          apply Z.pow_add_r; unfold E; lia. }
        assert (Q : 0 < 2 ^ (- E)) by (apply Z.pow_pos_nonneg; unfold E; lia).
        rewrite S in Lt. nia.
      * rewrite Z.shiftl_div_pow2 by lia.
        apply Z.div_lt_upper_bound; [apply Z.pow_pos_nonneg; lia |].
        assert (S : 2 ^ (- E) = 2 ^ (- e3) * 2 ^ (e3 - E)).
        { replace (- E) with (- e3 + (e3 - E)) by lia.
          apply Z.pow_add_r; lia. }
        assert (Q : 0 < 2 ^ (e3 - E)) by (apply Z.pow_pos_nonneg; lia).
        rewrite S in Lt. nia.
Qed.

(** Where the binary64 product and the exact product part: 0.35 * 20 is 7
    on binary64 numbers (the exact product of that number and 20 is below 7),
    and 0.15 * 20 is 3; the largest number below 1 gives 19. *)
Lemma Math_floor_rounded_products :
  Math_floor ((Number 35 / Number 100) * Number GRID_SIZE)%float = 7 /\
  Math_floor ((Number 15 / Number 100) * Number GRID_SIZE)%float = 3 /\
  Math_floor (next_down (Number 1) * Number GRID_SIZE)%float = 19 /\
  unit_interval (next_down (Number 1)).
Proof. repeat split; vm_compute; reflexivity. Qed.

Section UnitSource.

Variable rand : nat -> float.
Hypothesis rand_unit : forall i, unit_interval (rand i).

Lemma random_coordinate_range (i : nat) :
  0 <= random_coordinate rand i < GRID_SIZE.
Proof.
  unfold random_coordinate.
  destruct (unit_times_GRID_SIZE (rand i) (rand_unit i)) as [_ R]. exact R.
Qed.

Lemma random_cell_in_grid (i : nat) : in_grid (random_cell rand i).
Proof.
  split; [apply (random_coordinate_range i) | apply (random_coordinate_range (S i))].
Qed.

(** C6, as the code has it: what [generatePeach] returns is a cell of the grid
    that is not on the snake; it returns exactly at the first draw that misses
    the snake, and such a cell exists when the snake has fewer than
    [GRID_SIZE * GRID_SIZE] cells; when every cell of the grid is occupied it
    draws for ever: no fuel makes it return, and nothing is raised. *)
Theorem generatePeach_returns_first_free :
  forall (cells : list Position) (i : nat),
    (forall fuel p j,
        generatePeach rand fuel i cells = Some (p, j) ->
        in_grid p /\ ~ In p cells) /\
    (forall k,
        free_draw rand i cells k ->
        exists k', (k' <= k)%nat /\
          forall fuel, (k' < fuel)%nat ->
            generatePeach rand fuel i cells =
              Some (random_cell rand (i + 2 * k'), (2 + (i + 2 * k'))%nat) /\
            in_grid (random_cell rand (i + 2 * k')) /\
            ~ In (random_cell rand (i + 2 * k')) cells) /\
    (Z.of_nat (List.length cells) < GRID_SIZE * GRID_SIZE ->
     exists p, in_grid p /\ ~ In p cells) /\
    ((forall p, in_grid p -> In p cells) ->
     forall fuel, generatePeach rand fuel i cells = None).
Proof.
  intros cells i. split; [| split; [| split]].
  - intros fuel p j G. split; [| exact (generatePeach_not_In _ _ _ _ _ _ G)].
    destruct (generatePeach_Some _ _ _ _ _ _ G) as [k [_ [-> _]]].
    apply random_cell_in_grid.
  - intros k F.
    destruct (generatePeach_first_free rand cells k i F) as [k' [Hle [Hf [_ G]]]].
    exists k'. split; [exact Hle |]. intros fuel Hk.
    split; [exact (G fuel Hk) |]. split; [apply random_cell_in_grid |].
    apply some_at_not_In. exact Hf.
  - apply free_cell_exists.
  - intros Full. apply generatePeach_None. intros k F.
    apply some_at_not_In in F. apply F. apply Full. apply random_cell_in_grid.
Qed.

End UnitSource.

Lemma rand_of_unit (results : list float) :
  Forall unit_interval results ->
  forall i, unit_interval (rand_of results i).
Proof.
  intros F. unfold rand_of. induction F as [| q results Hq F IH]; intros i.
  - destruct i; exact mid_0_unit.
  - destruct i as [| i]; [exact Hq | exact (IH i)].
Qed.

Lemma rand_retry_unit : forall i, unit_interval (rand_retry i).
Proof.
  apply rand_of_unit.
  repeat (apply Forall_cons; [split; vm_compute; reflexivity |]).
  apply Forall_nil.
Qed.

(** The first cell drawn, (10,10), is the snake's; the loop draws again and
    returns (3,4) after four random results. *)
Lemma generatePeach_returns_first_free_witness :
  (forall i, unit_interval (rand_retry i)) /\
  random_cell rand_retry 0 = mkPosition 10 10 /\
  generatePeach rand_retry 2 0 INITIAL_SNAKE = Some (mkPosition 3 4, 4%nat) /\
  in_grid (mkPosition 3 4) /\ ~ In (mkPosition 3 4) INITIAL_SNAKE.
Proof.
  split; [exact rand_retry_unit |]. split; [reflexivity |]. split; [reflexivity |].
  destruct (generatePeach_returns_first_free rand_retry rand_retry_unit
              INITIAL_SNAKE 0) as [Sound _].
  exact (Sound 2%nat (mkPosition 3 4) 4%nat eq_refl).
Defined.

(** C6 fails as stated.  With the whole grid occupied the loop never leaves
    and reports nothing; and with a single occupied cell it never leaves
    either when the source keeps drawing that cell. *)
Lemma generatePeach_loops_for_ever :
  (List.length all_cells = 400%nat /\
   (forall p, in_grid p -> In p all_cells) /\
   forall fuel, generatePeach rand_low fuel 0 all_cells = None) /\
  (forall fuel, generatePeach rand_low fuel 0 [mkPosition 0 0] = None).
Proof.
  split; [split; [vm_compute; reflexivity | split; [exact all_cells_complete |]] |].
  - apply generatePeach_None. intros k. unfold free_draw.
    rewrite rand_low_cell.
    assert (E : some_at (mkPosition 0 0) all_cells = true) by (vm_compute; reflexivity).
    rewrite E. discriminate.
  - apply generatePeach_None. intros k. unfold free_draw.
    rewrite rand_low_cell. discriminate.
Qed.

(** * Reset *)

(** C8, as the code has it: [resetGame] puts back the snake of one cell at
    (10,10), the direction RIGHT, the score 0 and the phase IDLE, and writes
    the fixed peach (15,10), which is not on that snake; it consumes no random
    result, whatever the state it is called in. *)
Theorem resetGame_restores_defaults :
  forall (st : State),
    snake (resetGame st) = [mkPosition 10 10] /\
    direction (resetGame st) = RIGHT /\
    score (resetGame st) = 0 /\
    phase (resetGame st) = IDLE /\
    peach (resetGame st) = mkPosition 15 10 /\
    ~ In (peach (resetGame st)) (snake (resetGame st)) /\
    randomCalls (resetGame st) = randomCalls st /\
    resetGame st = mkState (snake initialState) (direction initialState)
                     (peach initialState) (gameOver initialState)
                     (score initialState) (isPlaying initialState)
                     (randomCalls st).
Proof.
  intros st. repeat split. simpl. intros [H | []]. discriminate.
Qed.

(** C8 fails as stated: with a source whose first draw is the free cell (3,4),
    a freshly generated peach, the one [startGame] stores, is (3,4); the peach
    after [resetGame] is (15,10) and no random result has been read. *)
Lemma resetGame_does_not_generate :
  generatePeach rand_3_4 1 (randomCalls initialState) INITIAL_SNAKE =
    Some (mkPosition 3 4, 2%nat) /\
  option_map peach (startGame rand_3_4 1 initialState) = Some (mkPosition 3 4) /\
  peach (resetGame initialState) = mkPosition 15 10 /\
  peach (resetGame initialState) <> mkPosition 3 4 /\
  randomCalls (resetGame initialState) = 0%nat.
Proof.
  repeat split. discriminate.
Qed.

(** * The branches of a tick, read backwards *)

Lemma moveSnake_inv (rand : nat -> float) (fuel : nat) (st : State)
  (branch : Branch) (st' : State) :
  moveSnake rand fuel st = Some (branch, st') ->
  match branch with
  | NotRunning => phase st <> ACTIVE /\ st' = st
  | WallCollision =>
      phase st = ACTIVE /\ st' = collided st /\
      exists head, newHead st = Some head /\ ~ in_grid head
  | SelfCollision =>
      phase st = ACTIVE /\ st' = collided st /\
      exists head, newHead st = Some head /\ in_grid head /\ In head (snake st)
  | PeachCollected =>
      phase st = ACTIVE /\
      exists head p j,
        newHead st = Some head /\ in_grid head /\ ~ In head (snake st) /\
        head = peach st /\ score st + 1 < MAX_PEACHES /\
        generatePeach rand fuel (randomCalls st) (head :: snake st) = Some (p, j) /\
        st' = mkState (head :: snake st) (direction st) p (gameOver st)
                      (score st + 1) (isPlaying st) j
  | GameWon =>
      phase st = ACTIVE /\
      exists head,
        newHead st = Some head /\ in_grid head /\ ~ In head (snake st) /\
        head = peach st /\ MAX_PEACHES <= score st + 1 /\
        st' = mkState (head :: snake st) (direction st) (peach st) (gameOver st)
                      (score st + 1) false (randomCalls st)
  | TailRemoved =>
      phase st = ACTIVE /\
      ((snake st = [] /\ st' = st) \/
       exists head,
         newHead st = Some head /\ in_grid head /\ ~ In head (snake st) /\
         head <> peach st /\
         st' = mkState (removelast (head :: snake st)) (direction st) (peach st)
                       (gameOver st) (score st) (isPlaying st) (randomCalls st))
  end.
Proof.
  intros M.
  destruct (gameOver st || negb (isPlaying st) || (score st >=? MAX_PEACHES)) eqn:G.
  { unfold moveSnake in M. rewrite G in M. injection M as <- <-.
    split; [| reflexivity]. intros A. apply guard_phase in A. congruence. }
  apply guard_phase in G. rewrite (moveSnake_active rand fuel st G) in M.
  unfold newHead. destruct (snake st) as [| first rest] eqn:E.
  { injection M as <- <-. split; [exact G |]. left. split; reflexivity. }
  cbv zeta in M. set (head := advance (direction st) first) in *.
  destruct (hits_wall head) eqn:W.
  { injection M as <- <-. split; [exact G |]. split; [reflexivity |].
    exists head. split; [reflexivity |]. apply hits_wall_true. exact W. }
  apply hits_wall_false in W.
  destruct (some_at head (first :: rest)) eqn:S.
  { injection M as <- <-. split; [exact G |]. split; [reflexivity |].
    exists head. split; [reflexivity |]. split; [exact W |].
    apply some_at_In. exact S. }
  apply some_at_not_In in S.
  destruct (same_cell head (peach st)) eqn:P.
  - apply same_cell_true in P.
    destruct (Z.ltb_spec (score st + 1) MAX_PEACHES) as [Lt | Ge].
    + destruct (generatePeach rand fuel (randomCalls st) (head :: first :: rest))
        as [[p j] |] eqn:Gp; [| discriminate].
      injection M as <- <-. split; [exact G |].
      exists head, p, j.
      repeat (split; [first [reflexivity | assumption] |]). reflexivity.
    + injection M as <- <-. split; [exact G |].
      exists head.
      repeat (split; [first [reflexivity | assumption] |]). reflexivity.
  - injection M as <- <-. split; [exact G |]. right.
    exists head. split; [reflexivity |]. split; [exact W |]. split; [exact S |].
    split; [| reflexivity].
    intros H. rewrite H, same_cell_refl in P. discriminate.
Qed.

(** * What every state of a run satisfies *)

Lemma advance_adjacent (d : Direction) (p : Position) : adjacent (advance d p) p.
Proof. destruct d; unfold adjacent, advance; simpl; lia. Qed.

Lemma NoDup_removelast (A : Type) (l : list A) : NoDup l -> NoDup (removelast l).
Proof.
  induction l as [| b l IH]; [intros _; constructor |].
  destruct l as [| c l]; [intros _; constructor |].
  change (removelast (b :: c :: l)) with (b :: removelast (c :: l)).
  intros N. inversion N as [| ? ? Hb Hl]; subst. constructor.
  - intros H. apply Hb. apply In_removelast. exact H.
  - apply IH. exact Hl.
Qed.

Lemma connected_removelast (l : list Position) :
  connected l -> connected (removelast l).
Proof.
  induction l as [| b l IH]; [intros _; exact I |].
  destruct l as [| c l]; [intros _; exact I |].
  change (removelast (b :: c :: l)) with (b :: removelast (c :: l)).
  intros [Hbc Hl]. specialize (IH Hl).
  destruct l as [| e l]; [exact I |].
  change (removelast (c :: e :: l)) with (c :: removelast (e :: l)) in *.
  split; assumption.
Qed.

Lemma Forall_removelast (A : Type) (P : A -> Prop) (l : list A) :
  Forall P l -> Forall P (removelast l).
Proof.
  rewrite !Forall_forall. intros H a Ha. apply H. apply In_removelast. exact Ha.
Qed.

Lemma well_formed_initial : well_formed initialState.
Proof.
  constructor; simpl; unfold MAX_PEACHES; try lia; try discriminate.
  - repeat constructor. intros [].
  - exact INITIAL_SNAKE_in_grid.
  - intros _ _ _. repeat split.
Qed.

Lemma well_formed_resetGame (st : State) : well_formed (resetGame st).
Proof.
  constructor; simpl; unfold MAX_PEACHES; try lia; try discriminate.
  - repeat constructor. intros [].
  - exact INITIAL_SNAKE_in_grid.
  - intros _ _ _. repeat split.
Qed.

Lemma well_formed_startGame (rand : nat -> float) (fuel : nat) (st st' : State) :
  startGame rand fuel st = Some st' -> well_formed st'.
Proof.
  unfold startGame.
  destruct (generatePeach rand fuel (randomCalls st) INITIAL_SNAKE) as [[p j] |];
    [| discriminate].
  intros H. injection H as <-.
  constructor; simpl; unfold MAX_PEACHES; try lia; try discriminate.
  - repeat constructor. intros [].
  - exact INITIAL_SNAKE_in_grid.
Qed.

Lemma well_formed_setDirection (d : Direction) (st : State) :
  well_formed st -> well_formed (setDirection d st).
Proof. intros [? ? ? ? ? ? ? ?]. constructor; assumption. Qed.

Lemma well_formed_moveSnake (rand : nat -> float) (fuel : nat) (st : State)
  (branch : Branch) (st' : State) :
  well_formed st ->
  moveSnake rand fuel st = Some (branch, st') ->
  well_formed st'.
Proof.
  intros W M. pose proof (moveSnake_inv rand fuel st branch st' M) as V.
  destruct W as [Wsc Wlen Wnd Wco Wgr Wpl Wgo Wid].
  destruct branch.
  - destruct V as [_ ->]. constructor; assumption.
  - destruct V as [A [-> _]]. apply phase_ACTIVE in A. destruct A as [_ [_ Lt]].
    constructor; cbn [collided snake score gameOver isPlaying peach];
      try assumption; try discriminate. intros _. exact Lt.
  - destruct V as [A [-> _]]. apply phase_ACTIVE in A. destruct A as [_ [_ Lt]].
    constructor; cbn [collided snake score gameOver isPlaying peach];
      try assumption; try discriminate. intros _. exact Lt.
  - destruct V as [A [head [p [j [N [G [NI [_ [Lt [_ ->]]]]]]]]]].
    apply phase_ACTIVE in A. destruct A as [Go [Pl _]].
    unfold newHead in N. destruct (snake st) as [| first rest] eqn:E; [discriminate |].
    injection N as N.
    constructor; cbn [snake score gameOver isPlaying peach].
    + lia.
    + cbn [List.length] in *. lia.
    + constructor; assumption.
    + split; [rewrite <- N; apply advance_adjacent | exact Wco].
    + constructor; assumption.
    + intros _. split; [exact Go | exact Lt].
    + intros _. exact Lt.
    + rewrite Pl. discriminate.
  - destruct V as [A [head [N [G [NI [_ [Ge ->]]]]]]].
    apply phase_ACTIVE in A. destruct A as [Go [Pl Lt]].
    unfold newHead in N. destruct (snake st) as [| first rest] eqn:E; [discriminate |].
    injection N as N.
    constructor; cbn [snake score gameOver isPlaying peach].
    + lia.
    + cbn [List.length] in *. lia.
    + constructor; assumption.
    + split; [rewrite <- N; apply advance_adjacent | exact Wco].
    + constructor; assumption.
    + discriminate.
    + rewrite Go. discriminate.
    + intros _ _ Lt'. lia.
  - destruct V as [A [[_ ->] | [head [N [G [NI [_ ->]]]]]]].
    { constructor; assumption. }
    apply phase_ACTIVE in A. destruct A as [Go [Pl Lt]].
    constructor; cbn [snake score gameOver isPlaying peach]; try assumption.
    + rewrite length_removelast_cons. exact Wlen.
    + apply NoDup_removelast. constructor; assumption.
    + apply connected_removelast.
      unfold newHead in N. destruct (snake st) as [| first rest]; [discriminate |].
      injection N as N.
      split; [rewrite <- N; apply advance_adjacent | exact Wco].
    + apply Forall_removelast. constructor; assumption.
    + rewrite Pl. discriminate.
Qed.

Lemma well_formed_handle (rand : nat -> float) (fuel : nat) (e : Event) (st st' : State) :
  well_formed st -> handle rand fuel e st = Some st' -> well_formed st'.
Proof.
  intros W H. destruct e; simpl in H.
  - destruct (moveSnake rand fuel st) as [[branch st1] |] eqn:M; [| discriminate].
    injection H as <-. exact (well_formed_moveSnake rand fuel st branch st1 W M).
  - injection H as <-.
    destruct (handleKeyPress_cases event_key st) as [-> | [d' ->]];
      [exact W | apply well_formed_setDirection; exact W].
  - injection H as <-.
    destruct (handleMobileControl_cases newDirection st) as [-> | [d' ->]];
      [exact W | apply well_formed_setDirection; exact W].
  - exact (well_formed_startGame rand fuel st st' H).
  - injection H as <-. apply well_formed_resetGame.
Qed.

Lemma reachable_well_formed (rand : nat -> float) (st : State) :
  reachable rand st -> well_formed st.
Proof.
  intros R. induction R as [| st e fuel st' R IH H].
  - exact well_formed_initial.
  - exact (well_formed_handle rand fuel e st st' IH H).
Qed.

Lemma crashing_run : run rand_win 1 crash_events initialState = Some crashed_state.
Proof. vm_compute. reflexivity. Qed.

Lemma crashed_state_reachable : reachable rand_win crashed_state.
Proof.
  apply (run_reachable rand_win 1 crash_events initialState).
  - apply reachable_initial.
  - exact crashing_run.
Qed.

(** * The score, the snake and the flags along a run *)

(** X1: in every state of every run the score lies between 0 and
    [MAX_PEACHES] and the snake has exactly score + 1 cells; so it is never
    empty, and it has eleven cells once the game is won. *)
Theorem snake_length_is_score_plus_one :
  forall (rand : nat -> float) (st : State),
    reachable rand st ->
    0 <= score st <= MAX_PEACHES /\
    Z.of_nat (List.length (snake st)) = score st + 1 /\
    snake st <> [] /\
    (phase st = WON -> List.length (snake st) = 11%nat).
Proof.
  intros rand st R. destruct (reachable_well_formed rand st R) as [Sc Len _ _ _ _ _ _].
  split; [exact Sc |]. split; [exact Len |]. split.
  - intros E. rewrite E in Len. simpl in Len. lia.
  - intros W. apply phase_WON in W. unfold MAX_PEACHES in *. lia.
Qed.

Lemma snake_length_is_score_plus_one_witness :
  score won_state = 10 /\ List.length (snake won_state) = 11%nat.
Proof.
  split; [reflexivity |].
  destruct (snake_length_is_score_plus_one rand_win won_state won_state_reachable)
    as [_ [_ [_ L]]].
  apply L. reflexivity.
Defined.

(** X2: in every state of every run the cells of the snake are pairwise
    distinct. *)
Theorem snake_cells_distinct :
  forall (rand : nat -> float) (st : State),
    reachable rand st -> NoDup (snake st).
Proof.
  intros rand st R. exact (wf_distinct st (reachable_well_formed rand st R)).
Qed.

Lemma snake_cells_distinct_witness :
  List.length (snake won_state) = 11%nat /\ NoDup (snake won_state).
Proof.
  split; [reflexivity |].
  exact (snake_cells_distinct rand_win won_state won_state_reachable).
Defined.

(** X3: in every state of every run each cell of the snake is a neighbour, in
    a row or in a column, of the cell that follows it. *)
Theorem snake_is_connected :
  forall (rand : nat -> float) (st : State),
    reachable rand st -> connected (snake st).
Proof.
  intros rand st R. exact (wf_connected st (reachable_well_formed rand st R)).
Qed.

Lemma snake_is_connected_witness :
  List.length (snake won_state) = 11%nat /\ connected (snake won_state).
Proof.
  split; [reflexivity |].
  exact (snake_is_connected rand_win won_state won_state_reachable).
Defined.

(** X4: along a run the flags are tied to the phase: [isPlaying] is set
    exactly in the ACTIVE phase, [gameOver] exactly in the LOST phase, and a
    state of the IDLE phase holds the initial snake, the default peach and the
    score 0. *)
Theorem flags_follow_phase :
  forall (rand : nat -> float) (st : State),
    reachable rand st ->
    (isPlaying st = true <-> phase st = ACTIVE) /\
    (gameOver st = true <-> phase st = LOST) /\
    (phase st = IDLE ->
     snake st = INITIAL_SNAKE /\ peach st = DEFAULT_PEACH /\ score st = 0).
Proof.
  intros rand st R.
  destruct (reachable_well_formed rand st R) as [_ _ _ _ _ Pl Go Id].
  unfold phase. destruct (Z.leb_spec MAX_PEACHES (score st)) as [Ge | Lt].
  - split; [| split].
    + split; [| discriminate]. intros P. apply Pl in P. lia.
    + split; [| discriminate]. intros G. apply Go in G. lia.
    + discriminate.
  - destruct (gameOver st) eqn:G.
    + split; [| split].
      * split; [| discriminate]. intros P. apply Pl in P. destruct P; discriminate.
      * split; reflexivity.
      * discriminate.
    + destruct (isPlaying st) eqn:P.
      * split; [| split]; [split; reflexivity | split; discriminate | discriminate].
      * split; [| split]; [split; discriminate | split; discriminate |].
        intros _. apply Id; [reflexivity | reflexivity | exact Lt].
Qed.

Lemma flags_follow_phase_witness :
  (gameOver crashed_state = true /\ phase crashed_state = LOST) /\
  (isPlaying won_state = false /\ phase won_state = WON).
Proof.
  split.
  - split; [reflexivity |].
    destruct (flags_follow_phase rand_win crashed_state crashed_state_reachable)
      as [_ [G _]].
    apply G. reflexivity.
  - split; [| reflexivity].
    destruct (flags_follow_phase rand_win won_state won_state_reachable)
      as [P _].
    destruct (isPlaying won_state) eqn:E; [| reflexivity].
    destruct P as [P _]. specialize (P eq_refl). discriminate.
Defined.

(** X5: along a run the page follows the phase: the status line shows
    "Victory!" in the WON phase, "Game Over" in the LOST phase and nothing
    otherwise; the button is "Start Game" in the IDLE phase, the reset button
    in the ACTIVE phase and "Play Again" after a game; the interval runs in
    the ACTIVE phase only and the instructions show in the IDLE phase only. *)
Theorem page_follows_phase :
  forall (rand : nat -> float) (st : State),
    reachable rand st ->
    statusTexts st =
      match phase st with
      | WON => [VictoryText] | LOST => [GameOverText] | _ => []
      end /\
    buttonShown st =
      match phase st with
      | IDLE => StartGameButton | ACTIVE => ResetButton | _ => PlayAgainButton
      end /\
    gameLoopRuns st = match phase st with ACTIVE => true | _ => false end /\
    instructionsShown st = match phase st with IDLE => true | _ => false end.
Proof.
  intros rand st R.
  destruct (reachable_well_formed rand st R) as [Sc _ _ _ _ Pl Go Id].
  unfold statusTexts, buttonShown, gameLoopRuns, instructionsShown, isGameWon, phase.
  rewrite Z.geb_leb.
  destruct (Z.leb_spec MAX_PEACHES (score st)) as [Ge | Lt].
  - assert (P : isPlaying st = false).
    { destruct (isPlaying st); [| reflexivity].
      destruct (Pl eq_refl) as [_ L]. lia. }
    assert (Z : (score st =? 0) = false).
    { apply Z.eqb_neq. unfold MAX_PEACHES in Ge. lia. }
    assert (L : (score st <? MAX_PEACHES) = false) by (apply Z.ltb_ge; exact Ge).
    rewrite P, Z, L. simpl. rewrite !andb_false_r. repeat split.
  - assert (L : (score st <? MAX_PEACHES) = true) by (apply Z.ltb_lt; exact Lt).
    rewrite L. destruct (gameOver st) eqn:G.
    + assert (P : isPlaying st = false).
      { destruct (isPlaying st); [| reflexivity].
        destruct (Pl eq_refl) as [F _]. discriminate. }
      rewrite P. simpl. rewrite !andb_false_r. repeat split.
    + destruct (isPlaying st) eqn:P.
      * repeat split.
      * destruct (Id eq_refl eq_refl Lt) as [_ [_ S0]]. rewrite S0. repeat split.
Qed.

Lemma page_follows_phase_witness :
  statusTexts crashed_state = [GameOverText] /\
  buttonShown crashed_state = PlayAgainButton /\
  statusTexts won_state = [VictoryText] /\
  buttonShown won_state = PlayAgainButton.
Proof.
  destruct (page_follows_phase rand_win crashed_state crashed_state_reachable)
    as [T1 [B1 _]].
  destruct (page_follows_phase rand_win won_state won_state_reachable)
    as [T2 [B2 _]].
  split; [exact T1 |]. split; [exact B1 |]. split; [exact T2 | exact B2].
Defined.

(** * The peach stays on the board *)

Lemma generatePeach_in_grid (rand : nat -> float) :
  (forall i, unit_interval (rand i)) ->
  forall fuel i cells p j,
    generatePeach rand fuel i cells = Some (p, j) -> in_grid p.
Proof.
  intros U fuel i cells p j G.
  destruct (generatePeach_Some _ _ _ _ _ _ G) as [k [_ [-> _]]].
  apply random_cell_in_grid. exact U.
Qed.

Lemma DEFAULT_PEACH_in_grid : in_grid DEFAULT_PEACH.
Proof. unfold in_grid, GRID_SIZE. simpl. lia. Qed.

Lemma reachable_peach_in_grid (rand : nat -> float) :
  (forall i, unit_interval (rand i)) ->
  forall st, reachable rand st -> in_grid (peach st).
Proof.
  intros U st R. induction R as [| st e fuel st' R IH H].
  - exact DEFAULT_PEACH_in_grid.
  - apply (handle_keeps (fun _ target _ => in_grid target) rand fuel e st st');
      try assumption.
    + intros branch st1 M.
      pose proof (moveSnake_inv rand fuel st branch st1 M) as V.
      destruct branch.
      * destruct V as [_ ->]. exact IH.
      * destruct V as [_ [-> _]]. exact IH.
      * destruct V as [_ [-> _]]. exact IH.
      * destruct V as [_ [head [p [j [_ [_ [_ [_ [_ [G ->]]]]]]]]]].
        exact (generatePeach_in_grid rand U _ _ _ _ _ G).
      * destruct V as [_ [head [_ [_ [_ [_ [_ ->]]]]]]]. exact IH.
      * destruct V as [_ [[_ ->] | [head [_ [_ [_ [_ ->]]]]]]]; exact IH.
    + intros p j G. exact (generatePeach_in_grid rand U _ _ _ _ _ G).
    + exact DEFAULT_PEACH_in_grid.
Qed.

(** X6: with a random source of binary64 numbers of [[0,1)], the peach is a cell of the
    grid in every state of every run (so it always has a square on the
    board). *)
Theorem peach_stays_in_grid :
  forall (rand : nat -> float),
    (forall i, unit_interval (rand i)) ->
    forall st, reachable rand st ->
      in_grid (peach st) /\
      In (index_of_cell (peach st)) board_indices /\
      squareHasPeach st (index_of_cell (peach st)) = true.
Proof.
  intros rand U st R. pose proof (reachable_peach_in_grid rand U st R) as G.
  split; [exact G |].
  unfold board_indices, GRID_SIZE. change (Z.to_nat (20 * 20)) with 400%nat.
  destruct (peach st) as [px py] eqn:E.
  unfold in_grid, GRID_SIZE in G. simpl in G.
  unfold squareHasPeach, isPeach, cell_of_index, index_of_cell, GRID_SIZE.
  rewrite E. simpl x. simpl y. split.
  - apply in_map_iff. exists (Z.to_nat (py * 20 + px)). split; [lia |].
    apply in_seq. lia.
  - rewrite Z.rem_mod_nonneg by lia.
    assert (D : (py * 20 + px) / 20 = py)
      by (symmetry; apply (Z.div_unique _ _ py px); lia).
    assert (M : (py * 20 + px) mod 20 = px)
      by (symmetry; apply (Z.mod_unique _ _ py px); lia).
    rewrite D, M. apply same_cell_refl.
Qed.

Lemma rand_win_unit : forall i, unit_interval (rand_win i).
Proof.
  apply rand_of_unit. unfold rand_win. cbn [rev seq flat_map app].
  repeat (apply Forall_cons; [split; vm_compute; reflexivity |]).
  apply Forall_nil.
Qed.

Lemma peach_stays_in_grid_witness :
  peach crashed_state = mkPosition 10 9 /\ in_grid (peach crashed_state).
Proof.
  split; [reflexivity |].
  destruct (peach_stays_in_grid rand_win rand_win_unit crashed_state
              crashed_state_reachable) as [G _].
  exact G.
Defined.

(** * More on the direction inputs *)

Lemma blocked_is_LOST (st : State) :
  gameOver st && (score st <? MAX_PEACHES) =
  match phase st with LOST => true | _ => false end.
Proof.
  unfold phase. destruct (Z.leb_spec MAX_PEACHES (score st)) as [Ge | Lt].
  - replace (score st <? MAX_PEACHES) with false
      by (symmetry; apply Z.ltb_ge; exact Ge).
    apply andb_false_r.
  - replace (score st <? MAX_PEACHES) with true
      by (symmetry; apply Z.ltb_lt; exact Lt).
    destruct (gameOver st), (isPlaying st); reflexivity.
Qed.

(** X7: a key press or a touch changes nothing but the stored direction: the
    snake, the peach, the score and both flags, hence the phase, are as
    before, and no random result is read. *)
Theorem inputs_only_change_direction :
  forall (st : State) (event_key : string) (newDirection : Direction) (st' : State),
    st' = handleKeyPress event_key st \/ st' = handleMobileControl newDirection st ->
    snake st' = snake st /\ peach st' = peach st /\ score st' = score st /\
    gameOver st' = gameOver st /\ isPlaying st' = isPlaying st /\
    randomCalls st' = randomCalls st /\ phase st' = phase st.
Proof.
  intros st k d st' [-> | ->].
  - destruct (handleKeyPress_cases k st) as [-> | [d' ->]]; repeat split.
  - destruct (handleMobileControl_cases d st) as [-> | [d' ->]]; repeat split.
Qed.

Lemma inputs_only_change_direction_witness :
  direction (handleKeyPress "w" scenario_C) = UP /\
  snake (handleKeyPress "w" scenario_C) = snake scenario_C /\
  phase (handleKeyPress "w" scenario_C) = ACTIVE.
Proof.
  split; [reflexivity |].
  destruct (inputs_only_change_direction scenario_C "w" UP
              (handleKeyPress "w" scenario_C)) as [S [_ [_ [_ [_ [_ P]]]]]].
  - left. reflexivity.
  - split; [exact S | exact P].
Defined.

Lemma handleKeyPress_letter (k : string) (d : Direction) (st : State) :
  toLowerCase k = wasd d -> handleKeyPress k st = handleMobileControl d st.
Proof.
  intros K. unfold handleKeyPress, handleMobileControl. rewrite K.
  destruct (gameOver st && (score st <? MAX_PEACHES)); [reflexivity |].
  destruct d; reflexivity.
Qed.

Lemma handleKeyPress_other (k : string) (st : State) :
  (forall d, toLowerCase k <> wasd d) -> handleKeyPress k st = st.
Proof.
  intros N. unfold handleKeyPress.
  destruct (gameOver st && (score st <? MAX_PEACHES)); [reflexivity |].
  cbv zeta.
  destruct (String.eqb_spec (toLowerCase k) "w") as [E | _];
    [exfalso; exact (N UP E) |].
  destruct (String.eqb_spec (toLowerCase k) "s") as [E | _];
    [exfalso; exact (N DOWN E) |].
  destruct (String.eqb_spec (toLowerCase k) "a") as [E | _];
    [exfalso; exact (N LEFT E) |].
  destruct (String.eqb_spec (toLowerCase k) "d") as [E | _];
    [exfalso; exact (N RIGHT E) |].
  reflexivity.
Qed.

Lemma key_letter_or_other (k : string) :
  (exists d, toLowerCase k = wasd d) \/ (forall d, toLowerCase k <> wasd d).
Proof.
  destruct (string_dec (toLowerCase k) "w") as [E | Nw]; [left; exists UP; exact E |].
  destruct (string_dec (toLowerCase k) "s") as [E | Ns]; [left; exists DOWN; exact E |].
  destruct (string_dec (toLowerCase k) "a") as [E | Na]; [left; exists LEFT; exact E |].
  destruct (string_dec (toLowerCase k) "d") as [E | Nd]; [left; exists RIGHT; exact E |].
  right. intros d. destruct d; assumption.
Qed.

(** X8: the keyboard and the touch buttons are two ways into the same
    transition: a key whose lower-case form is the letter of a direction acts
    as the touch button of that direction, and every other key leaves the
    state as it is. *)
Theorem key_acts_as_touch :
  forall (event_key : string) (st : State),
    (forall d, toLowerCase event_key = wasd d ->
               handleKeyPress event_key st = handleMobileControl d st) /\
    ((forall d, toLowerCase event_key <> wasd d) ->
     handleKeyPress event_key st = st).
Proof.
  intros k st. split.
  - intros d K. exact (handleKeyPress_letter k d st K).
  - exact (handleKeyPress_other k st).
Qed.

Lemma key_acts_as_touch_witness :
  handleKeyPress "S" scenario_C = handleMobileControl DOWN scenario_C /\
  direction (handleKeyPress "S" scenario_C) = DOWN /\
  handleKeyPress "ArrowUp" scenario_C = scenario_C.
Proof.
  destruct (key_acts_as_touch "S" scenario_C) as [K _].
  destruct (key_acts_as_touch "ArrowUp" scenario_C) as [_ O].
  split; [apply K; reflexivity |]. split; [reflexivity |].
  apply O. intros d. destruct d; discriminate.
Defined.

(** X9: the direction after an input: the one asked for, unless the phase is
    LOST or the one asked for is the opposite of the current one, in which
    cases the direction is kept. *)
Theorem direction_after_input :
  forall (d : Direction) (st : State),
    direction (handleMobileControl d st) =
      if match phase st with LOST => true | _ => false end
         || Direction_eqb d (opposite (direction st))
      then direction st
      else d.
Proof.
  intros d st. unfold handleMobileControl. rewrite blocked_is_LOST.
  destruct (match phase st with LOST => true | _ => false end); [reflexivity |].
  destruct d, (direction st) eqn:D; simpl; rewrite ?D; reflexivity.
Qed.

(** X10: an input given twice in a row acts as the input given once. *)
Theorem input_twice_is_input_once :
  forall (d : Direction) (event_key : string) (st : State),
    handleMobileControl d (handleMobileControl d st) = handleMobileControl d st /\
    handleKeyPress event_key (handleKeyPress event_key st) =
      handleKeyPress event_key st.
Proof.
  intros d k st.
  assert (T : forall d, handleMobileControl d (handleMobileControl d st)
                        = handleMobileControl d st).
  { intros d0. unfold handleMobileControl.
    destruct (gameOver st && (score st <? MAX_PEACHES)) eqn:B.
    - rewrite B. reflexivity.
    - destruct d0, (direction st) eqn:D; simpl; rewrite ?B, ?D; reflexivity. }
  split; [apply T |].
  destruct (key_letter_or_other k) as [[d0 K] | K].
  - rewrite !(handleKeyPress_letter k d0 _ K). apply T.
  - rewrite !(handleKeyPress_other k _ K). reflexivity.
Qed.

(** * What a tick changes *)





(** * Starting a game *)

(** X13: [startGame] drops the game at hand, whatever its phase: when it
    returns, the game is ACTIVE with the initial snake, heading RIGHT, with
    the score 0 and a peach that lies in the grid and not on (10,10); what it
    returns depends on the state only through the random results left; and it
    returns as soon as a draw within the fuel misses (10,10). *)
Theorem startGame_starts_afresh :
  forall (rand : nat -> float),
    (forall i, unit_interval (rand i)) ->
    forall (fuel : nat) (st : State),
      (forall st', startGame rand fuel st = Some st' ->
         phase st' = ACTIVE /\ snake st' = [mkPosition 10 10] /\
         direction st' = RIGHT /\ score st' = 0 /\
         in_grid (peach st') /\ peach st' <> mkPosition 10 10) /\
      (forall st2, randomCalls st2 = randomCalls st ->
                   startGame rand fuel st2 = startGame rand fuel st) /\
      (forall k, free_draw rand (randomCalls st) INITIAL_SNAKE k ->
                 (k < fuel)%nat ->
                 exists st', startGame rand fuel st = Some st').
Proof.
  intros rand U fuel st. split; [| split].
  - intros st' S. unfold startGame in S.
    destruct (generatePeach rand fuel (randomCalls st) INITIAL_SNAKE)
      as [[p j] |] eqn:G; [| discriminate].
    injection S as <-. simpl.
    repeat (split; [reflexivity |]).
    split; [exact (generatePeach_in_grid rand U _ _ _ _ _ G) |].
    intros E. apply (generatePeach_not_In _ _ _ _ _ _ G). left. symmetry. exact E.
  - intros st2 E. unfold startGame. rewrite E. reflexivity.
  - intros k F Hk. unfold startGame.
    destruct (generatePeach_first_free rand INITIAL_SNAKE k _ F) as [k' [Hle [_ [_ G]]]].
    rewrite (G fuel) by lia. eauto.
Qed.

(** A new game after a crash: the first cell left in the source is (3,4). *)
Lemma startGame_starts_afresh_witness :
  startGame rand_retry 1 crashed_state =
    Some (mkState [mkPosition 10 10] RIGHT (mkPosition 3 4) false 0 true 4) /\
  (forall st', startGame rand_retry 1 crashed_state = Some st' ->
               phase st' = ACTIVE /\ in_grid (peach st')).
Proof.
  split; [reflexivity |].
  intros st' S.
  destruct (startGame_starts_afresh rand_retry rand_retry_unit 1 crashed_state)
    as [F _].
  destruct (F st' S) as [A [_ [_ [_ [G _]]]]]. split; [exact A | exact G].
Defined.

(** * Self-collisions *)




Lemma handleMobileControl_accepts (d : Direction) (st : State) :
  gameOver st && (score st <? MAX_PEACHES) = false ->
  d <> opposite (direction st) ->
  handleMobileControl d st = setDirection d st.
Proof.
  intros B N. unfold handleMobileControl. rewrite B.
  destruct d, (direction st) eqn:D; simpl; try reflexivity;
    exfalso; apply N; reflexivity.
Qed.

(** X15: turning round kills a snake of two cells or more.  In the ACTIVE
    phase, when the head is the cell one step ahead of the second cell and the
    second cell lies in the grid, a turn to either side followed by the
    direction opposite to the one just taken is accepted, and the next tick is
    a self-collision: the head computed is the second cell. *)
Theorem turning_round_is_fatal :
  forall (rand : nat -> float) (fuel : nat) (st : State) (first second : Position)
         (rest : list Position) (side : Direction),
    phase st = ACTIVE ->
    snake st = first :: second :: rest ->
    first = advance (direction st) second ->
    in_grid second ->
    side <> direction st ->
    side <> opposite (direction st) ->
    let st2 := handleMobileControl (opposite (direction st))
                 (handleMobileControl side st) in
    direction st2 = opposite (direction st) /\
    newHead st2 = Some second /\
    moveSnake rand fuel st2 = Some (SelfCollision, collided st2) /\
    phase (collided st2) = LOST.
Proof.
  intros rand fuel st first second rest side A E F G N1 N2 st2.
  pose proof A as P. apply phase_ACTIVE in P. destruct P as [Go [Pl Lt]].
  assert (B : gameOver st && (score st <? MAX_PEACHES) = false)
    by (rewrite Go; reflexivity).
  assert (S1 : handleMobileControl side st = setDirection side st)
    by (apply handleMobileControl_accepts; assumption).
  assert (S2 : st2 = setDirection (opposite (direction st)) (setDirection side st)).
  { unfold st2. rewrite S1. apply handleMobileControl_accepts; [exact B |].
    simpl. destruct side, (direction st); try discriminate;
      exfalso; (apply N1 || apply N2); reflexivity. }
  assert (A2 : phase st2 = ACTIVE) by (rewrite S2; exact A).
  assert (H2 : newHead st2 = Some second).
  { rewrite S2. unfold newHead. simpl. rewrite E. f_equal.
    rewrite F. apply advance_back. }
  split; [rewrite S2; reflexivity |]. split; [exact H2 |].
  split; [| apply phase_collided; rewrite S2; exact Lt].
  rewrite (moveSnake_active rand fuel st2 A2).
  unfold newHead in H2. destruct (snake st2) as [| c tl] eqn:E2; [discriminate |].
  injection H2 as H2. cbv zeta. rewrite H2.
  apply hits_wall_false in G. rewrite G.
  assert (I : some_at second (c :: tl) = true).
  { apply some_at_In. rewrite <- E2, S2. simpl. rewrite E. right. left. reflexivity. }
  rewrite I. reflexivity.
Qed.

(** Two cells heading RIGHT: after UP and LEFT the head computed is (10,10),
    the second cell. *)
Lemma turning_round_is_fatal_witness :
  direction (handleMobileControl LEFT (handleMobileControl UP two_cells)) = LEFT /\
  moveSnake rand_low 0 (handleMobileControl LEFT (handleMobileControl UP two_cells)) =
    Some (SelfCollision,
          collided (handleMobileControl LEFT (handleMobileControl UP two_cells))).
Proof.
  destruct (turning_round_is_fatal rand_low 0 two_cells (mkPosition 11 10)
              (mkPosition 10 10) [] UP) as [D [_ [M _]]];
    try reflexivity; try discriminate.
  - unfold in_grid, GRID_SIZE; simpl; lia.
  - split; [exact D | exact M].
Defined.

(** * After the game *)

Lemma same_but_direction_refl (st : State) : same_but_direction st st.
Proof. repeat split. Qed.

Lemma same_but_direction_trans (a b c : State) :
  same_but_direction a b -> same_but_direction b c -> same_but_direction a c.
Proof.
  unfold same_but_direction.
  intros [? [? [? [? [? ?]]]]] [? [? [? [? [? ?]]]]].
  repeat split; congruence.
Qed.

Lemma same_but_direction_phase (a b : State) :
  same_but_direction a b -> phase a = phase b.
Proof.
  intros [_ [_ [G [S [P _]]]]]. unfold phase. rewrite G, S, P. reflexivity.
Qed.

Lemma handle_outside_ACTIVE (rand : nat -> float) (fuel : nat) (e : Event) (st : State) :
  phase st <> ACTIVE ->
  not_a_click e = true ->
  exists st', handle rand fuel e st = Some st' /\
    same_but_direction st st' /\ (phase st = LOST -> st' = st).
Proof.
  intros N C. destruct e; try discriminate; simpl.
  - rewrite (moveSnake_idle rand fuel st N). simpl.
    exists st. split; [reflexivity |]. split; [apply same_but_direction_refl | auto].
  - exists (handleKeyPress event_key st). split; [reflexivity |]. split.
    + destruct (handleKeyPress_cases event_key st) as [-> | [d' ->]]; repeat split.
    + intros L. unfold handleKeyPress. rewrite blocked_is_LOST, L. reflexivity.
  - exists (handleMobileControl newDirection st). split; [reflexivity |]. split.
    + destruct (handleMobileControl_cases newDirection st) as [-> | [d' ->]];
        repeat split.
    + intros L. unfold handleMobileControl. rewrite blocked_is_LOST, L. reflexivity.
Qed.

(** X16: outside the ACTIVE phase only the button changes the game: any
    sequence of interval firings, key presses and touches leaves the snake, the
    peach, the score and the flags as they are; in the LOST phase it leaves
    the direction too, while before a game and after a won game the
    direction asked for is still stored. *)
Theorem only_the_button_ends_the_pause :
  forall (rand : nat -> float) (fuel : nat) (events : list Event) (st : State),
    phase st <> ACTIVE ->
    forallb not_a_click events = true ->
    exists st', run rand fuel events st = Some st' /\
      same_but_direction st st' /\ (phase st = LOST -> st' = st).
Proof.
  intros rand fuel events. induction events as [| e rest IH]; intros st N C.
  - exists st. split; [reflexivity |].
    split; [apply same_but_direction_refl | auto].
  - simpl in C. apply andb_true_iff in C. destruct C as [Ce Cr].
    destruct (handle_outside_ACTIVE rand fuel e st N Ce) as [st1 [H [S L]]].
    assert (P : phase st1 = phase st)
      by (symmetry; apply same_but_direction_phase; exact S).
    destruct (IH st1) as [st' [R [S' L']]]; [rewrite P; exact N | exact Cr |].
    exists st'. simpl. rewrite H. split; [exact R |]. split.
    + exact (same_but_direction_trans st st1 st' S S').
    + intros Lo. rewrite <- (L Lo). apply L'. rewrite P. exact Lo.
Qed.

(** After the crash nothing moves; after the won game the key "a" is still
    stored. *)
Lemma only_the_button_ends_the_pause_witness :
  run rand_low 0 [KeyDown "a"; Interval; TouchStart DOWN] crashed_state =
    Some crashed_state /\
  option_map direction (run rand_low 0 [KeyDown "a"; Interval] won_state) =
    Some LEFT /\
  option_map snake (run rand_low 0 [KeyDown "a"; Interval] won_state) =
    Some (snake won_state).
Proof.
  destruct (only_the_button_ends_the_pause rand_low 0
              [KeyDown "a"; Interval; TouchStart DOWN] crashed_state)
    as [st' [R [_ L]]].
  - vm_compute. discriminate.
  - reflexivity.
  - split; [rewrite R, (L eq_refl); reflexivity |].
    split; reflexivity.
Defined.

(** * The board *)

Lemma cell_of_index_in_grid (index : Z) :
  0 <= index < GRID_SIZE * GRID_SIZE ->
  in_grid (cell_of_index index) /\ index_of_cell (cell_of_index index) = index.
Proof.
  unfold in_grid, cell_of_index, index_of_cell, GRID_SIZE. simpl x. simpl y.
  intros H. rewrite Z.rem_mod_nonneg by lia.
  pose proof (Z.mod_pos_bound index 20 ltac:(lia)) as Hm.
  pose proof (Z.div_mod index 20 ltac:(lia)) as Hd.
  assert (0 <= index / 20) by (apply Z.div_pos; lia).
  assert (index / 20 < 20) by (apply Z.div_lt_upper_bound; lia).
  lia.
Qed.

Lemma index_of_cell_in_board (cell : Position) :
  in_grid cell ->
  0 <= index_of_cell cell < GRID_SIZE * GRID_SIZE /\
  cell_of_index (index_of_cell cell) = cell.
Proof.
  destruct cell as [cx cy].
  unfold in_grid, cell_of_index, index_of_cell, GRID_SIZE. simpl x. simpl y.
  intros [Hx Hy]. split; [lia |].
  rewrite Z.rem_mod_nonneg by lia.
  assert (D : (cy * 20 + cx) / 20 = cy)
    by (symmetry; apply (Z.div_unique _ _ cy cx); lia).
  assert (M : (cy * 20 + cx) mod 20 = cx)
    by (symmetry; apply (Z.mod_unique _ _ cy cx); lia).
  rewrite D, M. reflexivity.
Qed.

Lemma board_indices_range (index : Z) :
  In index board_indices <-> 0 <= index < GRID_SIZE * GRID_SIZE.
Proof.
  unfold board_indices, GRID_SIZE. change (Z.to_nat (20 * 20)) with 400%nat.
  rewrite in_map_iff. split.
  - intros [n [<- Hn]]. apply in_seq in Hn. lia.
  - intros H. exists (Z.to_nat index). split; [lia |]. apply in_seq. lia.
Qed.

(** X17: the squares of the board are the cells of the grid, each once: the
    indices mapped over are those from 0 to [GRID_SIZE * GRID_SIZE - 1], the
    cell of such an index lies in the grid, and index to cell and cell to
    index (y * GRID_SIZE + x) are inverse to each other. *)
Theorem board_squares_are_grid_cells :
  (forall index, In index board_indices <-> 0 <= index < GRID_SIZE * GRID_SIZE) /\
  (forall index, In index board_indices ->
     in_grid (cell_of_index index) /\
     index_of_cell (cell_of_index index) = index) /\
  (forall cell, in_grid cell ->
     In (index_of_cell cell) board_indices /\
     cell_of_index (index_of_cell cell) = cell) /\
  (forall index index',
     In index board_indices -> In index' board_indices ->
     cell_of_index index = cell_of_index index' -> index = index').
Proof.
  split; [exact board_indices_range |]. split; [| split].
  - intros index H. apply cell_of_index_in_grid. apply board_indices_range. exact H.
  - intros cell H. destruct (index_of_cell_in_board cell H) as [R E].
    split; [apply board_indices_range; exact R | exact E].
  - intros i j Hi Hj E.
    apply board_indices_range in Hi. apply board_indices_range in Hj.
    destruct (cell_of_index_in_grid i Hi) as [_ Ei].
    destruct (cell_of_index_in_grid j Hj) as [_ Ej].
    rewrite <- Ei, <- Ej, E. reflexivity.
Qed.

(** The colour of a square, from the cell it stands for. *)
Lemma squareColour_cases (st : State) (first : Position) (rest : list Position)
  (index : Z) :
  snake st = first :: rest ->
  squareColour st index =
    if same_cell first (cell_of_index index) then Emerald400
    else if some_at (cell_of_index index) rest then Emerald300
    else if same_cell (peach st) (cell_of_index index) then Pink400
    else Green50.
Proof.
  intros E. unfold squareColour, isSnakeHead, isSnakeBody, isPeach.
  rewrite E. reflexivity.
Qed.

(** X18: what the colours of the board mean along a run.  A square is
    emerald-400 exactly when its cell is the head of the snake, emerald-300
    exactly when its cell is one of the other cells of the snake, and pink
    exactly when its cell is the peach and the game is not won; the peach emoji
    is on the square of the peach, which in the WON phase is the emerald-400
    square of the head. *)
Theorem board_colours :
  forall (rand : nat -> float) (st : State) (index : Z),
    reachable rand st ->
    let cell := cell_of_index index in
    (squareColour st index = Emerald400 <-> hd_error (snake st) = Some cell) /\
    (squareColour st index = Emerald300 <-> In cell (tl (snake st))) /\
    (squareColour st index = Pink400 <-> cell = peach st /\ phase st <> WON) /\
    (squareHasPeach st index = true <-> cell = peach st) /\
    (phase st = WON -> squareHasPeach st index = true ->
     squareColour st index = Emerald400).
Proof.
  intros rand st index R cell. subst cell.
  destruct (reachable_well_formed rand st R) as [Sc Len Nd _ _ _ _ _].
  destruct (reachable_peach_placed rand st R) as [Off On].
  destruct (snake st) as [| first rest] eqn:E.
  { simpl in Len. lia. }
  rewrite (squareColour_cases st first rest index E).
  unfold squareHasPeach, isPeach. simpl hd_error. simpl tl.
  generalize (cell_of_index index). intros cell.
  inversion Nd as [| ? ? Nf Nr]; subst.
  assert (HP : same_cell (peach st) cell = true <-> cell = peach st).
  { rewrite same_cell_true. split; intros H; symmetry; exact H. }
  assert (WonHead : phase st = WON -> peach st = first).
  { intros W. apply phase_WON in W. destruct (On W) as [tl' Et].
    injection Et as Et _. symmetry. exact Et. }
  assert (OffP : phase st <> WON -> ~ In (peach st) (first :: rest)).
  { intros NW. apply Off.
    destruct (Z.lt_ge_cases (score st) MAX_PEACHES) as [L | G]; [exact L |].
    exfalso. apply NW. apply phase_WON. exact G. }
  destruct (same_cell first cell) eqn:H1.
  - apply same_cell_true in H1. subst first.
    split; [split; reflexivity |].
    split; [split; [discriminate | intros I; contradiction] |].
    split; [| split; [exact HP | reflexivity]].
    split; [discriminate |]. intros [Ep NW]. exfalso.
    apply (OffP NW). rewrite <- Ep. left. reflexivity.
  - assert (NH : Some first = Some cell -> False).
    { intros H. injection H as H. rewrite H, same_cell_refl in H1. discriminate. }
    assert (NW : phase st = WON -> cell = peach st -> False).
    { intros W Ep. apply NH. rewrite Ep, (WonHead W). reflexivity. }
    destruct (some_at cell rest) eqn:H2.
    + apply some_at_In in H2.
      split; [split; [discriminate | intros H; exfalso; exact (NH H)] |].
      split; [split; [intros _; exact H2 | reflexivity] |].
      split; [| split; [exact HP |]].
      * split; [discriminate |]. intros [Ep NWon]. exfalso.
        apply (OffP NWon). rewrite <- Ep. right. exact H2.
      * intros W Hp. exfalso. apply (NW W). apply HP. exact Hp.
    + apply some_at_not_In in H2.
      destruct (same_cell (peach st) cell) eqn:H3.
      * split; [split; [discriminate | intros H; exfalso; exact (NH H)] |].
        split; [split; [discriminate | intros I; contradiction] |].
        split; [| split; [exact HP |]].
        -- split; [| reflexivity]. intros _.
           split; [apply HP; reflexivity |].
           intros W. apply (NW W). apply HP. reflexivity.
        -- intros W _. exfalso. apply (NW W). apply HP. reflexivity.
      * split; [split; [discriminate | intros H; exfalso; exact (NH H)] |].
        split; [split; [discriminate | intros I; contradiction] |].
        split; [| split; [exact HP |]].
        -- split; [discriminate |]. intros [Ep _]. apply HP in Ep. discriminate.
        -- intros _ Hp. discriminate.
Qed.

(** The won game: the square of (10,0), index 10, is the head's and carries
    the peach emoji. *)
Lemma board_colours_witness :
  cell_of_index 10 = mkPosition 10 0 /\
  squareColour won_state 10 = Emerald400 /\
  squareHasPeach won_state 10 = true.
Proof.
  split; [reflexivity |].
  destruct (board_colours rand_win won_state 10 won_state_reachable)
    as [_ [_ [_ [_ W]]]].
  split; [apply W; reflexivity | reflexivity].
Defined.

(** * Counting squares *)

Lemma filter_length_or (A : Type) (f g : A -> bool) (l : list A) :
  (forall a, In a l -> f a = true -> g a = false) ->
  List.length (filter (fun a => f a || g a) l) =
  (List.length (filter f l) + List.length (filter g l))%nat.
Proof.
  induction l as [| a l IH]; intros D; [reflexivity |].
  cbn [filter].
  assert (IH' := IH (fun b Hb => D b (or_intror Hb))).
  specialize (D a (or_introl eq_refl)).
  destruct (f a); [rewrite (D eq_refl) |]; destruct (g a) eqn:G;
    try discriminate; cbn [orb List.length]; lia.
Qed.

Lemma filter_nil_when_false (A : Type) (p : A -> bool) (l : list A) :
  (forall b, In b l -> p b = false) -> filter p l = [].
Proof.
  induction l as [| c l IH]; intros F; [reflexivity |].
  cbn [filter]. rewrite (F c (or_introl eq_refl)).
  apply IH. intros b Hb. apply F. right. exact Hb.
Qed.

Lemma filter_length_one (A : Type) (p : A -> bool) (a : A) (l : list A) :
  NoDup l -> In a l ->
  (forall b, In b l -> p b = true <-> b = a) ->
  List.length (filter p l) = 1%nat.
Proof.
  induction l as [| c l IH]; intros N I P; [destruct I |].
  inversion N as [| ? ? Nc Nl]; subst. cbn [filter].
  destruct (p c) eqn:Pc.
  - apply (P c (or_introl eq_refl)) in Pc. subst c.
    rewrite filter_nil_when_false; [reflexivity |].
    intros b Hb. destruct (p b) eqn:Pb; [| reflexivity].
    apply (P b (or_intror Hb)) in Pb. subst b. contradiction.
  - destruct I as [-> | I].
    + assert (T : p a = true) by (apply P; [left |]; reflexivity).
      congruence.
    + apply IH; [exact Nl | exact I |].
      intros b Hb. apply P. right. exact Hb.
Qed.

Lemma board_indices_NoDup : NoDup board_indices.
Proof.
  assert (E : nodup Z.eq_dec board_indices = board_indices)
    by (vm_compute; reflexivity).
  rewrite <- E. apply NoDup_nodup.
Qed.

(** A cell of the grid has one square. *)
Lemma squares_of_cell (cell : Position) :
  in_grid cell ->
  List.length (filter (fun index => same_cell cell (cell_of_index index))
                      board_indices) = 1%nat.
Proof.
  intros G. destruct (index_of_cell_in_board cell G) as [R E].
  apply (filter_length_one _ _ (index_of_cell cell)).
  - exact board_indices_NoDup.
  - apply board_indices_range. exact R.
  - intros i Hi. apply board_indices_range in Hi.
    destruct (cell_of_index_in_grid i Hi) as [_ Ei].
    rewrite same_cell_true. split.
    + intros ->. symmetry. exact Ei.
    + intros ->. symmetry. exact E.
Qed.

(** Distinct cells of the grid have as many squares as they are. *)
Lemma squares_of_cells (cells : list Position) :
  NoDup cells -> Forall in_grid cells ->
  List.length (filter (fun index => some_at (cell_of_index index) cells)
                      board_indices) = List.length cells.
Proof.
  induction cells as [| c cells IH]; intros N G.
  - rewrite filter_nil_when_false; reflexivity.
  - inversion N as [| ? ? Nc Nl]; subst. inversion G as [| ? ? Gc Gl]; subst.
    change (fun index => some_at (cell_of_index index) (c :: cells))
      with (fun index => same_cell c (cell_of_index index)
                         || some_at (cell_of_index index) cells).
    rewrite filter_length_or.
    + rewrite (squares_of_cell c Gc), (IH Nl Gl). reflexivity.
    + intros i _ H. apply same_cell_true in H. rewrite <- H.
      apply some_at_not_In. exact Nc.
Qed.

Lemma colour_partition (st : State) (l : list Z) :
  (List.length (filter (fun i => Colour_eqb (squareColour st i) Emerald400) l) +
   List.length (filter (fun i => Colour_eqb (squareColour st i) Emerald300) l) +
   List.length (filter (fun i => Colour_eqb (squareColour st i) Pink400) l) +
   List.length (filter (fun i => Colour_eqb (squareColour st i) Green50) l))%nat
  = List.length l.
Proof.
  induction l as [| i l IH]; [reflexivity |].
  cbn [filter]. destruct (squareColour st i); cbn [Colour_eqb List.length]; lia.
Qed.

(** X19: what the board shows along a run, with a random source of binary64
    numbers of [[0,1)]: of its 400 squares one is emerald-400, as many as the score are
    emerald-300, one is pink until the game is won and none afterwards, and
    the others are green-50. *)
Theorem board_counts :
  forall (rand : nat -> float),
    (forall i, unit_interval (rand i)) ->
    forall st, reachable rand st ->
      List.length board_indices = 400%nat /\
      count_colour Emerald400 st = 1%nat /\
      Z.of_nat (count_colour Emerald300 st) = score st /\
      count_colour Pink400 st =
        match phase st with WON => 0%nat | _ => 1%nat end /\
      (count_colour Emerald400 st + count_colour Emerald300 st +
       count_colour Pink400 st + count_colour Green50 st = 400)%nat.
Proof.
  intros rand U st R.
  assert (L : List.length board_indices = 400%nat) by reflexivity.
  destruct (reachable_well_formed rand st R) as [Sc Len Nd _ Gr _ _ _].
  destruct (reachable_peach_placed rand st R) as [Off On].
  pose proof (reachable_peach_in_grid rand U st R) as Gp.
  pose proof (colour_partition st board_indices) as Part. rewrite L in Part.
  destruct (snake st) as [| first rest] eqn:E.
  { simpl in Len. lia. }
  inversion Nd as [| ? ? Nf Nr]; subst. inversion Gr as [| ? ? Gf Grest]; subst.
  assert (C400 : count_colour Emerald400 st = 1%nat).
  { unfold count_colour. rewrite <- (squares_of_cell first Gf).
    f_equal. apply filter_ext. intros i.
    rewrite (squareColour_cases st first rest i E).
    destruct (same_cell first (cell_of_index i)); [reflexivity |].
    destruct (some_at (cell_of_index i) rest); [reflexivity |].
    destruct (same_cell (peach st) (cell_of_index i)); reflexivity. }
  assert (C300 : count_colour Emerald300 st = List.length rest).
  { unfold count_colour. rewrite <- (squares_of_cells rest Nr Grest).
    f_equal. apply filter_ext. intros i.
    rewrite (squareColour_cases st first rest i E).
    destruct (same_cell first (cell_of_index i)) eqn:H1.
    - apply same_cell_true in H1. rewrite <- H1.
      symmetry. apply some_at_not_In. exact Nf.
    - destruct (some_at (cell_of_index i) rest); [reflexivity |].
      destruct (same_cell (peach st) (cell_of_index i)); reflexivity. }
  assert (CPink : count_colour Pink400 st =
                  match phase st with WON => 0%nat | _ => 1%nat end).
  { unfold count_colour.
    destruct (Z.lt_ge_cases (score st) MAX_PEACHES) as [Lt | Ge].
    - assert (NW : match phase st with WON => 0%nat | _ => 1%nat end = 1%nat).
      { unfold phase. destruct (Z.leb_spec MAX_PEACHES (score st)); [lia |].
        destruct (gameOver st), (isPlaying st); reflexivity. }
      rewrite NW, <- (squares_of_cell (peach st) Gp).
      f_equal. apply filter_ext. intros i.
      rewrite (squareColour_cases st first rest i E).
      specialize (Off Lt).
      destruct (same_cell (peach st) (cell_of_index i)) eqn:H3.
      + apply same_cell_true in H3. rewrite <- H3.
        replace (same_cell first (peach st)) with false.
        * replace (some_at (peach st) rest) with false; [reflexivity |].
          symmetry. apply some_at_not_In. intros I. apply Off. right. exact I.
        * symmetry. destruct (same_cell first (peach st)) eqn:H1; [| reflexivity].
          apply same_cell_true in H1. exfalso. apply Off. left. exact H1.
      + destruct (same_cell first (cell_of_index i)); [reflexivity |].
        destruct (some_at (cell_of_index i) rest); reflexivity.
    - assert (W : phase st = WON) by (apply phase_WON; exact Ge). rewrite W.
      destruct (On Ge) as [tl' Et]. injection Et as Ef _.
      rewrite filter_nil_when_false; [reflexivity |].
      intros i _. rewrite (squareColour_cases st first rest i E). rewrite <- Ef.
      destruct (same_cell first (cell_of_index i)); [reflexivity |].
      destruct (some_at (cell_of_index i) rest); reflexivity. }
  split; [exact L |]. split; [exact C400 |]. split.
  - rewrite C300. simpl in Len. lia.
  - split; [exact CPink |]. exact Part.
Qed.

(** The won game: one head square, ten body squares, no pink square. *)
Lemma board_counts_witness :
  count_colour Emerald400 won_state = 1%nat /\
  count_colour Emerald300 won_state = 10%nat /\
  count_colour Pink400 won_state = 0%nat /\
  count_colour Green50 won_state = 389%nat.
Proof.
  destruct (board_counts rand_win rand_win_unit won_state won_state_reachable)
    as [_ [C4 [C3 [CP Sum]]]].
  change (phase won_state) with WON in CP.
  change (score won_state) with 10 in C3.
  repeat split; lia.
Defined.

(** * The button *)

(** X20: along a run a click on the button under the board always leaves
    the initial snake, heading RIGHT, with the score 0 and a peach off the
    snake.  In the ACTIVE phase the button is the reset button and the click
    leads to the IDLE phase; in every other phase it starts a game, so the
    IDLE phase is entered from the ACTIVE phase only. *)
Theorem button_starts_or_resets :
  forall (rand : nat -> float) (fuel : nat) (st st' : State),
    reachable rand st ->
    clickButton rand fuel st = Some st' ->
    snake st' = INITIAL_SNAKE /\ direction st' = INITIAL_DIRECTION /\
    score st' = 0 /\ ~ In (peach st') (snake st') /\
    (phase st = ACTIVE ->
     buttonShown st = ResetButton /\ phase st' = IDLE /\ st' = resetGame st) /\
    (phase st <> ACTIVE ->
     buttonShown st <> ResetButton /\ phase st' = ACTIVE /\
     startGame rand fuel st = Some st').
Proof.
  intros rand fuel st st' R C.
  destruct (reachable_well_formed rand st R) as [_ _ _ _ _ Pl _ _].
  unfold clickButton, buttonShown in *.
  destruct (isPlaying st) eqn:P; simpl in C.
  - injection C as <-. destruct (Pl eq_refl) as [Go Lt].
    assert (A : phase st = ACTIVE) by (apply phase_ACTIVE; auto).
    split; [reflexivity |]. split; [reflexivity |]. split; [reflexivity |].
    split; [simpl; intros [H | []]; discriminate |].
    split; [| intros N; contradiction].
    intros _. split; [reflexivity |]. split; reflexivity.
  - assert (N : phase st <> ACTIVE).
    { intros A. apply phase_ACTIVE in A. destruct A as [_ [A _]]. congruence. }
    pose proof C as C'. unfold startGame in C.
    destruct (generatePeach rand fuel (randomCalls st) INITIAL_SNAKE)
      as [[p j] |] eqn:G; [| discriminate].
    injection C as <-. simpl.
    split; [reflexivity |]. split; [reflexivity |]. split; [reflexivity |].
    split; [exact (generatePeach_not_In _ _ _ _ _ _ G) |].
    split; [intros A; contradiction |].
    intros _. split; [| split; [reflexivity | exact C']].
    simpl. destruct ((score st =? 0) && negb (gameOver st)); discriminate.
Qed.

(** After the crash the button starts a game, the next peach of the source
    being (10,8); after the won game it starts one too. *)
Lemma button_starts_or_resets_witness :
  clickButton rand_win 1 crashed_state =
    Some (mkState [mkPosition 10 10] RIGHT (mkPosition 10 8) false 0 true 4) /\
  (forall st', clickButton rand_win 1 crashed_state = Some st' ->
               phase st' = ACTIVE) /\
  (forall st', clickButton rand_win 1 won_state = Some st' ->
               snake st' = INITIAL_SNAKE).
Proof.
  split; [reflexivity |]. split.
  - intros st' C.
    destruct (button_starts_or_resets rand_win 1 crashed_state st'
                crashed_state_reachable C) as [_ [_ [_ [_ [_ N]]]]].
    destruct N as [_ [A _]]; [vm_compute; discriminate | exact A].
  - intros st' C.
    destruct (button_starts_or_resets rand_win 1 won_state st'
                won_state_reachable C) as [S _].
    exact S.
Defined.

(** * The cells of the snake before and after a tick *)

Lemma In_removelast_NoDup (A : Type) (l : list A) (d : A) :
  NoDup l ->
  forall c, In c (removelast l) <-> In c l /\ c <> last l d.
Proof.
  induction l as [| b l IH]; intros N c.
  - simpl. tauto.
  - inversion N as [| ? ? Nb Nl]; subst.
    destruct l as [| e l].
    + simpl. split; [intros [] | intros [[H | []] NE]; congruence].
    + change (removelast (b :: e :: l)) with (b :: removelast (e :: l)).
      change (last (b :: e :: l) d) with (last (e :: l) d).
      specialize (IH Nl c).
      assert (Lin : In (last (e :: l) d) (e :: l)).
      { clear. revert e. induction l as [| f l IHl]; intros e.
        - left. reflexivity.
        - right. exact (IHl f). }
      split.
      * intros [<- | H].
        -- split; [left; reflexivity |]. intros E. apply Nb. rewrite E. exact Lin.
        -- apply IH in H. destruct H as [H NE]. split; [right; exact H | exact NE].
      * intros [[<- | H] NE]; [left; reflexivity |].
        right. apply IH. split; assumption.
Qed.

(** X21: how a tick that moves changes the cells of the snake along a run.
    On a peach the computed head is added and no cell is left; otherwise the
    head is added in front, every cell steps into the place of the one before
    it, and exactly the last cell is left. *)
Theorem tick_moves_cells :
  forall (rand : nat -> float) (fuel : nat) (st : State) (head : Position)
         (branch : Branch) (st' : State),
    reachable rand st ->
    newHead st = Some head ->
    moveSnake rand fuel st = Some (branch, st') ->
    (branch = PeachCollected \/ branch = GameWon -> snake st' = head :: snake st) /\
    (branch = TailRemoved ->
     snake st' = head :: removelast (snake st) /\
     forall c, In c (snake st') <->
               (c = head \/ In c (snake st)) /\ c <> last (snake st) head).
Proof.
  intros rand fuel st head branch st' R N M.
  pose proof (moveSnake_inv rand fuel st branch st' M) as V.
  destruct (reachable_well_formed rand st R) as [_ _ Nd _ _ _ _ _].
  split.
  - intros [-> | ->].
    + destruct V as [_ [h [p [j [N' [_ [_ [_ [_ [_ ->]]]]]]]]]].
      rewrite N in N'. injection N' as <-. reflexivity.
    + destruct V as [_ [h [N' [_ [_ [_ [_ ->]]]]]]].
      rewrite N in N'. injection N' as <-. reflexivity.
  - intros ->. destruct V as [_ [[E _] | [h [N' [_ [NI [_ ->]]]]]]].
    { unfold newHead in N. rewrite E in N. discriminate. }
    rewrite N in N'. injection N' as <-. cbn [snake].
    unfold newHead in N. destruct (snake st) as [| first rest] eqn:E; [discriminate |].
    split; [reflexivity |].
    intros c.
    rewrite (In_removelast_NoDup _ (head :: first :: rest) head
               ltac:(constructor; assumption) c).
    change (last (head :: first :: rest) head) with (last (first :: rest) head).
    split.
    + intros [[<- | H] NE]; (split; [| exact NE]); [left; reflexivity | right; exact H].
    + intros [[-> | H] NE]; (split; [| exact NE]); [left; reflexivity | right; exact H].
Qed.

Lemma moved_once_reachable : reachable rand_win moved_once.
Proof.
  apply (run_reachable rand_win 1 [ClickStart; Interval] initialState).
  - apply reachable_initial.
  - vm_compute. reflexivity.
Qed.

(** The second tick of that game: the one cell goes from (11,10) to (12,10). *)
Lemma tick_moves_cells_witness :
  moveSnake rand_win 1 moved_once =
    Some (TailRemoved,
          mkState [mkPosition 12 10] RIGHT (mkPosition 10 9) false 0 true 2) /\
  (forall c, In c [mkPosition 12 10] <->
             (c = mkPosition 12 10 \/ In c [mkPosition 11 10]) /\
             c <> mkPosition 11 10).
Proof.
  split; [reflexivity |].
  destruct (tick_moves_cells rand_win 1 moved_once (mkPosition 12 10) TailRemoved
              (mkState [mkPosition 12 10] RIGHT (mkPosition 10 9) false 0 true 2)
              moved_once_reachable eq_refl eq_refl) as [_ T].
  destruct (T eq_refl) as [_ I]. exact I.
Defined.

(** * Inputs before a click *)

(** X22: a direction stored by a key press or a touch does not survive the
    button: starting or resetting after the input gives the state that
    starting or resetting without it gives, heading RIGHT. *)
Theorem inputs_do_not_survive_a_click :
  forall (rand : nat -> float) (fuel : nat) (st st1 : State),
    (exists event_key, st1 = handleKeyPress event_key st) \/
    (exists newDirection, st1 = handleMobileControl newDirection st) ->
    startGame rand fuel st1 = startGame rand fuel st /\
    resetGame st1 = resetGame st /\
    clickButton rand fuel st1 = clickButton rand fuel st.
Proof.
  intros rand fuel st st1 H.
  assert (C : st1 = st \/ exists d, st1 = setDirection d st).
  { destruct H as [[k ->] | [d ->]].
    - apply handleKeyPress_cases.
    - apply handleMobileControl_cases. }
  destruct C as [-> | [d ->]]; repeat split.
Qed.

(** "w" before the first start: the game started heads RIGHT all the same. *)
Lemma inputs_do_not_survive_a_click_witness :
  direction (handleKeyPress "w" initialState) = UP /\
  option_map direction (startGame rand_win 1 (handleKeyPress "w" initialState)) =
    Some RIGHT.
Proof.
  split; [reflexivity |].
  destruct (inputs_do_not_survive_a_click rand_win 1 initialState
              (handleKeyPress "w" initialState)) as [S _].
  - left. exists "w"%string. reflexivity.
  - rewrite S. reflexivity.
Defined.
